(** * aiosqlite.sa.engine: the Engine facade and its scoped wrappers

    A shallow embedding of [aiosqlite/sa/engine.py].  Python objects with
    mutable state live in an explicit [World]; methods are computations in a
    small state-and-exception monad.  The modules [aiosqlite.core],
    [aiosqlite.pool], [aiosqlite.utils] and [aiosqlite.sa.connection] are
    imported by the engine but are not part of the sources at hand; what the
    engine needs of them is modelled from the specification and marked so. *)

From Stdlib Require Import ZArith Ascii String.
From stdpp Require Import gmap strings list.

Local Open Scope string_scope.

(** ** Exceptions *)

(** Modelled from the spec: the error taxonomy of section 7.  The modules
    that raise the Bridge's and the Pool's own failures are missing, so these
    are known by their kind only. *)
Inductive error_kind :=
  | ClosedError
  | TimeoutError
  | InvalidStateError
  | DriverError.

(** Exception classes.  [InvalidRequestError] is [aiosqlite.sa.exc]'s;
    [RuntimeError], [AttributeError] and [ValueError] are Python's built-ins;
    [Coordination k] is a failure of kind [k] raised by the Bridge or the
    Pool; [UserError] stands for any class raised by caller code. *)
Inductive exn_class :=
  | InvalidRequestError
  | RuntimeError
  | AttributeError
  | ValueError
  | Coordination (k : error_kind)
  | UserError (name : string).

(** Modelled from the spec: where the classes raised by the engine fall in
    the taxonomy of section 7.  [InvalidStateError] covers "releasing a
    connection with an unfinished transaction, or using a scoped wrapper
    incorrectly". *)
Definition kind (c : exn_class) : option error_kind :=
  match c with
  | InvalidRequestError => Some InvalidStateError
  | RuntimeError => Some InvalidStateError
  | Coordination k => Some k
  | AttributeError | ValueError | UserError _ => None
  end.

(** An exception instance: class, message and the implicit [__context__]
    chain Python sets when an exception is raised while another one is being
    handled. *)
#[warnings="-register-all"]
Inductive exn :=
  | Exn (cls : exn_class) (msg : string) (context : option exn).

Definition exn_cls (e : exn) : exn_class := let (c, _, _) := e in c.
Definition exn_msg (e : exn) : string := let (_, m, _) := e in m.
Definition exn_context (e : exn) : option exn := let (_, _, c) := e in c.

(** [raise] evaluated while [handled] is being handled: the new exception's
    [__context__] becomes the handled one. *)
Definition with_context (e : exn) (handled : option exn) : exn :=
  match handled with
  | Some h => Exn (exn_cls e) (exn_msg e) (Some h)
  | None => e
  end.

(** ** The state-and-exception monad *)

Inductive Result (A : Type) :=
  | Ok (a : A)
  | Raise (e : exn).
Arguments Ok {A} a.
Arguments Raise {A} e.

Definition raised {A} (r : Result A) : option exn :=
  match r with
  | Ok _ => None
  | Raise e => Some e
  end.

(** A computation over a mutable state [S]: the state is returned on both
    paths, since effects made before a [raise] stay. *)
Definition M (S A : Type) : Type := S -> Result A * S.

Definition ret {S A} (a : A) : M S A := fun s => (Ok a, s).

Definition raise {S A} (e : exn) : M S A := fun s => (Raise e, s).

Definition bind {S A B} (m : M S A) (k : A -> M S B) : M S B :=
  fun s =>
    match m s with
    | (Ok a, s1) => k a s1
    | (Raise e, s1) => (Raise e, s1)
    end.

Definition gets {S A} (f : S -> A) : M S A := fun s => (Ok (f s), s).

Definition modify {S} (f : S -> S) : M S unit := fun s => (Ok tt, f s).

Declare Scope py_scope.
Delimit Scope py_scope with py.
Notation "'let!' x ':=' m 'in' k" := (bind m (fun x => k))
  (at level 10, x name, m at level 100, k at level 200) : py_scope.
Notation "'run!' m 'in' k" := (bind m (fun _ => k))
  (at level 10, m at level 100, k at level 200) : py_scope.
Local Open Scope py_scope.

(** [try: body finally: fin].  The [finally] suite runs on both paths; when
    it completes normally the outcome of [body] stands, when it raises, its
    exception replaces the outcome (chained to a pending one). *)
Definition try_finally {S A} (body : M S A) (fin : M S unit) : M S A :=
  fun s =>
    let (r, s1) := body s in
    match fin s1 with
    | (Ok _, s2) => (r, s2)
    | (Raise ef, s2) => (Raise (with_context ef (raised r)), s2)
    end.

(** Run a computation on one component of a pair state. *)
Definition lift_snd {T S A} (m : M S A) : M (T * S) A :=
  fun ts =>
    let (r, s1) := m (snd ts) in (r, (fst ts, s1)).

(** ** The Bridge ([aiosqlite.core.Connection]) *)

Module Bridge.

(** Modelled from the spec: [aiosqlite/core.py] is missing; the Bridge's
    open/closing/closed state of section 3. *)
Inductive Status := Open | Closing | Closed.

(** Modelled from the spec: [aiosqlite/core.py] is missing; the deferred
    calls of section 3 ("Operation").  Closing is the [BeginClose] transition
    below, not a queued call. *)
Inductive Operation :=
  | Execute (sql : string)
  | ExecuteMany (sql : string)
  | ExecuteScript (sql : string)
  | Commit
  | Rollback
  | IterateCursor (cursor : nat).

(** What a result slot is fulfilled with: a value or a captured error. *)
Inductive Outcome :=
  | Value (v : string)
  | Error (cls : exn_class).

(** The opaque driver's answer to one call: its outcome and whether the
    handle is inside a transaction afterwards. *)
Record Response := { outcome : Outcome; in_transaction_after : bool }.

(** History of the worker's accesses to the underlying handle. *)
Inductive Event :=
  | Started (slot : nat)
  | Finished (slot : nat).

(** Modelled from the spec: [aiosqlite/core.py] is missing; the Bridge
    attributes of section 3.  [queue] is the Operation Queue of section 4.2,
    [worker] the call the dedicated worker is executing, if any.  Result
    slots are named by the number handed out at submission.  [submitted],
    [fulfilled] and [events] record the history: slots in submission order,
    slots in the order they were fulfilled, and the worker's accesses to the
    handle. *)
Record t := {
  bid : nat;
  created : Z;
  status : Status;
  in_transaction : bool;
  queue : list (nat * Operation);
  worker : option (nat * Operation);
  next_slot : nat;
  submitted : list nat;
  fulfilled : list (nat * Outcome);
  events : list Event;
}.

(** Modelled from the spec: creation opens the handle and starts the worker
    ("created by the Pool (or directly by a connect call)"). *)
Definition open (id : nat) (now : Z) : t :=
  {| bid := id; created := now; status := Open; in_transaction := false;
     queue := []; worker := None; next_slot := 0;
     submitted := []; fulfilled := []; events := [] |}.

Definition is_open (b : t) : bool :=
  match status b with Open => true | _ => false end.

(** Modelled from the spec: [submit] of section 4.1 with [enqueue] of 4.2.
    Appends to the tail and returns the new result slot; fails at once with
    [ClosedError] on a closing or closed Bridge. *)
Definition submit (op : Operation) : M t nat :=
  fun b =>
    if is_open b then
      let slot := next_slot b in
      (Ok slot,
       {| bid := bid b; created := created b; status := status b;
          in_transaction := in_transaction b;
          queue := queue b ++ [(slot, op)]; worker := worker b;
          next_slot := S slot;
          submitted := submitted b ++ [slot]; fulfilled := fulfilled b;
          events := events b |})
    else (Raise (Exn (Coordination ClosedError) "connection closed" None), b).

(** Modelled from the spec: [dequeue] of section 4.2, the worker taking the
    next operation (FIFO) and starting to execute it against the handle.
    Enabled when the worker is idle and the handle is not released. *)
Definition take (b : t) : option t :=
  match status b, worker b, queue b with
  | Closed, _, _ => None
  | _, None, (slot, op) :: rest =>
      Some {| bid := bid b; created := created b; status := status b;
              in_transaction := in_transaction b;
              queue := rest; worker := Some (slot, op);
              next_slot := next_slot b;
              submitted := submitted b; fulfilled := fulfilled b;
              events := events b ++ [Started slot] |}
  | _, _, _ => None
  end.

(** Modelled from the spec: the worker finishing the call in flight and
    fulfilling its slot, "and only then" going on to the next one. *)
Definition fulfil (r : Response) (b : t) : option t :=
  match worker b with
  | Some (slot, _) =>
      Some {| bid := bid b; created := created b; status := status b;
              in_transaction := in_transaction_after r;
              queue := queue b; worker := None;
              next_slot := next_slot b;
              submitted := submitted b;
              fulfilled := fulfilled b ++ [(slot, outcome r)];
              events := events b ++ [Finished slot] |}
  | None => None
  end.

(** Modelled from the spec: [close()] marks the Bridge closing; a second
    call changes nothing. *)
Definition begin_close (b : t) : t :=
  if is_open b then
    {| bid := bid b; created := created b; status := Closing;
       in_transaction := in_transaction b;
       queue := queue b; worker := worker b; next_slot := next_slot b;
       submitted := submitted b; fulfilled := fulfilled b;
       events := events b |}
  else b.

(** Modelled from the spec: while closing, the worker may fail the next
    queued operation with a "connection closed" error instead of executing
    it (section 3, lifecycle). *)
Definition drain (b : t) : option t :=
  match status b, worker b, queue b with
  | Closing, None, (slot, _) :: rest =>
      Some {| bid := bid b; created := created b; status := status b;
              in_transaction := in_transaction b;
              queue := rest; worker := None; next_slot := next_slot b;
              submitted := submitted b;
              fulfilled :=
                fulfilled b ++ [(slot, Error (Coordination ClosedError))];
              events := events b |}
  | _, _, _ => None
  end.

(** Modelled from the spec: once nothing is queued or in flight the handle
    is released and the Bridge is closed. *)
Definition shutdown (b : t) : option t :=
  match status b, worker b, queue b with
  | Closing, None, [] =>
      Some {| bid := bid b; created := created b; status := Closed;
              in_transaction := in_transaction b;
              queue := []; worker := None; next_slot := next_slot b;
              submitted := submitted b; fulfilled := fulfilled b;
              events := events b |}
  | _, _, _ => None
  end.

(** The atomic steps of one Bridge.  Submissions carry the caller that
    makes them: callers interleave freely with each other and with the
    worker. *)
Inductive Label :=
  | Submit (caller : nat) (op : Operation)
  | Take
  | Fulfil (r : Response)
  | BeginClose
  | Drain
  | Shutdown.

Definition step (l : Label) (b : t) : option t :=
  match l with
  | Submit _ op => Some (snd (submit op b))
  | Take => take b
  | Fulfil r => fulfil r b
  | BeginClose => Some (begin_close b)
  | Drain => drain b
  | Shutdown => shutdown b
  end.

(** An execution: a sequence of steps, each enabled where it is taken. *)
Fixpoint run (ls : list Label) (b : t) : option t :=
  match ls with
  | [] => Some b
  | l :: ls' =>
      match step l b with
      | Some b' => run ls' b'
      | None => None
      end
  end.

(** The slot of the call in flight. *)
Definition inflight (b : t) : list nat :=
  match worker b with
  | Some (slot, _) => [slot]
  | None => []
  end.

(** The calls that have started on the handle and not finished, read off
    the event history alone. *)
Fixpoint active (evs : list Event) (acc : list nat) : list nat :=
  match evs with
  | [] => acc
  | Started s :: evs' => active evs' (acc ++ [s])
  | Finished s :: evs' => active evs' (filter (fun x => x ≠ s) acc)
  end.

Definition executing (b : t) : list nat := active (events b) [].

(** Slots fulfilled, in flight and queued, in that order. *)
Definition pipeline (b : t) : list nat :=
  (map fst (fulfilled b) ++ inflight b ++ map fst (queue b))%list.

(** What every step keeps: the pipeline is the submission history, and the
    calls running on the handle according to the event history are the one
    the worker holds. *)
Definition invariant (b : t) : Prop :=
  pipeline b = submitted b ∧ executing b = inflight b.

End Bridge.

(** ** The Pool ([aiosqlite.pool.Pool]) *)

Module Pool.

(** Modelled from the spec: [aiosqlite/pool.py] is missing; the state
    machine [Open → Closing → Closed] of section 4.3. *)
Inductive State := Open | Closing | Closed.

(** Modelled from the spec: [aiosqlite/pool.py] is missing; the Pool
    attributes of section 3.  Idle Bridges are kept in the order they were
    returned, the in-use set holds the identities of the Bridges handed out,
    [next_bid] names the next Bridge to be opened. *)
Record t := {
  minsize : nat;
  maxsize : nat;
  timeout : Z;
  recycle : Z;
  idle : list Bridge.t;
  in_use : gset nat;
  state : State;
  next_bid : nat;
}.

Definition is_open (p : t) : bool :=
  match state p with Open => true | _ => false end.

(** Modelled from the spec: "[size] / [freesize] are instantaneous counts
    (idle+in-use, idle only)". *)
Definition size (p : t) : nat := length (idle p) + base.size (in_use p).

Definition freesize (p : t) : nat := length (idle p).

(** Modelled from the spec: the read-only [closed] property, true once the
    state machine has reached [Closed]. *)
Definition closed (p : t) : bool :=
  match state p with Closed => true | _ => false end.

(** [n] Bridges opened at [now], named [first], [first + 1], ... *)
Definition open_bridges (first n : nat) (now : Z) : list Bridge.t :=
  map (fun i => Bridge.open i now) (seq first n).

(** Modelled from the spec: "constructed with [minsize] Bridges pre-opened";
    "[minsize ≤ maxsize] is enforced at construction" ([None] is the
    rejection). *)
Definition create (now : Z) (minsize maxsize : nat) (timeout recycle : Z)
  : option t :=
  if (minsize <=? maxsize)%nat then
    Some {| minsize := minsize; maxsize := maxsize; timeout := timeout;
            recycle := recycle;
            idle := open_bridges 0 minsize now; in_use := ∅;
            state := Open; next_bid := minsize |}
  else None.

Inductive AcquireResult :=
  | Acquired (b : Bridge.t) (p : t)
  | WouldBlock
  | AcquireClosed.

(** Modelled from the spec: [acquire] of section 4.3, as one atomic attempt.
    An idle Bridge is handed out if there is one, else a new one is opened
    while [size < maxsize], else the caller has to wait ([WouldBlock]: the
    Pool is left as it is, the caller tries again after a release or gives
    up at its timeout).  A closing or closed Pool refuses. *)
Definition acquire (now : Z) (p : t) : AcquireResult :=
  if is_open p then
    match idle p with
    | b :: rest =>
        Acquired b
          {| minsize := minsize p; maxsize := maxsize p; timeout := timeout p;
             recycle := recycle p;
             idle := rest; in_use := {[Bridge.bid b]} ∪ in_use p;
             state := state p; next_bid := next_bid p |}
    | [] =>
        if (size p <? maxsize p)%nat then
          let b := Bridge.open (next_bid p) now in
          Acquired b
            {| minsize := minsize p; maxsize := maxsize p;
               timeout := timeout p; recycle := recycle p;
               idle := []; in_use := {[Bridge.bid b]} ∪ in_use p;
               state := state p; next_bid := S (next_bid p) |}
        else WouldBlock
    end
  else AcquireClosed.

(** Modelled from the spec: "the Bridge's age is within [recycle] (or
    recycling disabled)", [-1] meaning never. *)
Definition within_recycle (now : Z) (b : Bridge.t) (p : t) : bool :=
  (recycle p =? -1)%Z || (now - Bridge.created b <=? recycle p)%Z.

(** Modelled from the spec: "healthy (not in a failed/closed state and not
    left mid-transaction)". *)
Definition healthy (b : Bridge.t) : bool :=
  Bridge.is_open b && negb (Bridge.in_transaction b).

(** Modelled from the spec: a Closing Pool becomes Closed "once every Bridge
    (idle and in-use) has been closed". *)
Definition settle (p : t) : t :=
  match state p with
  | Closing =>
      if (size p =? 0)%nat then
        {| minsize := minsize p; maxsize := maxsize p; timeout := timeout p;
           recycle := recycle p; idle := idle p; in_use := in_use p;
           state := Closed; next_bid := next_bid p |}
      else p
  | _ => p
  end.

Inductive ReleaseResult :=
  | Released (p : t)
  | NotCheckedOut
  | InTransaction.

(** Modelled from the spec: [release] of section 4.3.  The spec defines it
    for a Bridge the Pool handed out; for any other the Pool is left as it is
    ([NotCheckedOut]).  A Bridge with an open transaction given back to an
    open Pool "must fail loudly" ([InTransaction], nothing changes).
    Otherwise the Bridge leaves the in-use set and either returns to the idle
    set (open Pool, age within [recycle], healthy) or is closed, a fresh one
    being opened only if the Pool is open and below [minsize]. *)
Definition release (now : Z) (b : Bridge.t) (p : t) : ReleaseResult :=
  if bool_decide (Bridge.bid b ∈ in_use p) then
    if is_open p && Bridge.in_transaction b then InTransaction
    else
      let used := in_use p ∖ {[Bridge.bid b]} in
      if is_open p && within_recycle now b p && healthy b then
        Released
          {| minsize := minsize p; maxsize := maxsize p; timeout := timeout p;
             recycle := recycle p;
             idle := idle p ++ [b]; in_use := used;
             state := state p; next_bid := next_bid p |}
      else if is_open p &&
              (length (idle p) + base.size used <? minsize p)%nat then
        Released
          {| minsize := minsize p; maxsize := maxsize p; timeout := timeout p;
             recycle := recycle p;
             idle := idle p ++ [Bridge.open (next_bid p) now]; in_use := used;
             state := state p; next_bid := S (next_bid p) |}
      else
        Released
          (settle
             {| minsize := minsize p; maxsize := maxsize p;
                timeout := timeout p; recycle := recycle p;
                idle := idle p; in_use := used;
                state := state p; next_bid := next_bid p |})
  else NotCheckedOut.

(** Modelled from the spec: [close()] "marks the pool non-acquiring and
    schedules idle Bridges for shutdown"; calling it twice has no additional
    effect. *)
Definition close (p : t) : t :=
  if is_open p then
    settle
      {| minsize := minsize p; maxsize := maxsize p; timeout := timeout p;
         recycle := recycle p; idle := []; in_use := in_use p;
         state := Closing; next_bid := next_bid p |}
  else p.

(** Modelled from the spec: [terminate()] "forcibly closes all Bridges,
    including ones currently checked out". *)
Definition terminate (p : t) : t :=
  {| minsize := minsize p; maxsize := maxsize p; timeout := timeout p;
     recycle := recycle p; idle := []; in_use := ∅;
     state := Closed; next_bid := next_bid p |}.

(** The calls a Pool receives, each an atomic step under the Pool's single
    exclusion mechanism.  Concurrent callers are an interleaving of these. *)
Inductive Op :=
  | Acquire (now : Z)
  | Release (now : Z) (b : Bridge.t)
  | Close
  | Terminate.

Definition step (o : Op) (p : t) : t :=
  match o with
  | Acquire now =>
      match acquire now p with
      | Acquired _ p' => p'
      | _ => p
      end
  | Release now b =>
      match release now b p with
      | Released p' => p'
      | _ => p
      end
  | Close => close p
  | Terminate => terminate p
  end.

Definition run (ops : list Op) (p : t) : t := foldl (fun q o => step o q) p ops.

(** The identities of the idle Bridges. *)
Definition idle_ids (p : t) : list nat := map Bridge.bid (idle p).

(** What the Pool's operations keep: the idle Bridges are distinct, healthy
    and not handed out, every Bridge was named before [next_bid], the size
    bounds are ordered and, while the Pool is open, they bound [size]. *)
Record wf (p : t) : Prop := {
  wf_nodup : NoDup (idle_ids p);
  wf_disjoint : ∀ x, x ∈ idle_ids p → x ∉ in_use p;
  wf_idle_fresh : ∀ x, x ∈ idle_ids p → (x < next_bid p)%nat;
  wf_used_fresh : ∀ x, x ∈ in_use p → (x < next_bid p)%nat;
  wf_healthy : ∀ b, b ∈ idle p → healthy b = true;
  wf_bounds : (minsize p ≤ maxsize p)%nat;
  wf_size : is_open p = true → (minsize p ≤ size p ≤ maxsize p)%nat;
}.


#[global] Instance inhabited : Inhabited t :=
  populate {| minsize := 0; maxsize := 0; timeout := 0; recycle := -1;
              idle := []; in_use := ∅; state := Closed; next_bid := 0 |}.

End Pool.

(** ** Values handed to the JSON hooks *)

#[warnings="-register-all"]
Inductive pyval :=
  | PyNone
  | PyBool (b : bool)
  | PyInt (z : Z)
  | PyStr (s : string)
  | PyList (items : list pyval)
  | PyDict (items : list (string * pyval)).

(** ** The dialect (sqlalchemy's [SQLiteDialect_pysqlite]) *)

Module Dialect.

(** Of the dialect object the engine reads [name] and [driver] and sets the
    two JSON hooks. *)
Record t := {
  name : string;
  driver : string;
  json_serializer : pyval -> pyval;
  json_deserializer : pyval -> pyval;
}.

(** The constructor call [SQLiteDialect_pysqlite(json_serializer=...,
    json_deserializer=...)]; the class attributes are sqlalchemy's. *)
Definition SQLiteDialect_pysqlite
  (json_serializer json_deserializer : pyval -> pyval) : t :=
  {| name := "sqlite"; driver := "pysqlite";
     json_serializer := json_serializer;
     json_deserializer := json_deserializer |}.

End Dialect.

(** ** Objects and the world they live in *)

(** [class Engine]: the attributes set by [__init__].  [_pool] is a
    reference to a Pool object of the world. *)
Record Engine := {
  _dialect : Dialect.t;
  _pool : nat;
  _dsn : option string;
}.

(** Modelled from the spec: [aiosqlite/sa/connection.py] is missing.  Of an
    [SAConnection] the engine uses the constructor [SAConnection(raw, engine)]
    and the attributes [connection] and [in_transaction]; the latter is
    mutable and is kept in the world, keyed by the object's identity. *)
Record SAConnection := {
  sa_id : nat;
  connection : Bridge.t;
  engine : Engine;
}.

(** [class _ConnectionContextManager]: its two slots.  [None] is Python's
    [None]. *)
Record _ConnectionContextManager := {
  _engine : option Engine;
  _conn : option SAConnection;
}.

(** A call received by a Pool object. *)
Inductive PoolCall :=
  | CallAcquire (pool : nat)
  | CallRelease (pool : nat) (bid : nat).

(** A task of the event loop.  The engine only ever schedules
    [pool.release(raw)]. *)
Inductive Task :=
  | TaskPoolRelease (pool : nat) (raw : Bridge.t).

(** The mutable state an engine works on: the Pool objects, the connections
    with an unfinished transaction, the event loop's pending tasks (oldest
    first) and the outcome of the finished ones, the calls the Pools have
    received so far, the loop's clock and the next free object identity. *)
Record World := {
  pools : gmap nat Pool.t;
  transactions : gset nat;
  tasks : list (nat * Task);
  settled : list (nat * option exn);
  calls : list PoolCall;
  clock : Z;
  next_object : nat;
}.

Definition set_pool (pid : nat) (p : Pool.t) (w : World) : World :=
  {| pools := <[pid := p]> (pools w); transactions := transactions w;
     tasks := tasks w; settled := settled w; calls := calls w;
     clock := clock w; next_object := next_object w |}.

Definition log_call (c : PoolCall) (w : World) : World :=
  {| pools := pools w; transactions := transactions w;
     tasks := tasks w; settled := settled w; calls := calls w ++ [c];
     clock := clock w; next_object := next_object w |}.

(** A fresh object identity. *)
Definition new_object : M World nat :=
  fun w =>
    (Ok (next_object w),
     {| pools := pools w; transactions := transactions w;
        tasks := tasks w; settled := settled w; calls := calls w;
        clock := clock w; next_object := S (next_object w) |}).

(** Modelled from the spec: [aiosqlite/sa/connection.py] is missing; the
    attribute [conn.in_transaction], the connection's "current
    in-transaction flag". *)
Definition in_transaction (conn : SAConnection) (w : World) : bool :=
  bool_decide (sa_id conn ∈ transactions w).

(** Modelled from the spec: [aiosqlite/sa/connection.py] is missing; the
    constructor call [SAConnection(raw, engine)], yielding a new object. *)
Definition SAConnection_new (raw : Bridge.t) (e : Engine)
  : M World SAConnection :=
  let! id := new_object in
  ret {| sa_id := id; connection := raw; engine := e |}.

(** Modelled from the spec: [aiosqlite/pool.py] is missing; the call
    [await pool.acquire()] of section 4.3, run to completion in one piece.
    A closing or closed Pool fails with [ClosedError]; a caller that would
    have to wait has no one to release a Bridge to it meanwhile, and
    "exceeding [timeout] fails with [TimeoutError]". *)
Definition pool_acquire (pid : nat) : M World Bridge.t :=
  fun w =>
    let w1 := log_call (CallAcquire pid) w in
    match Pool.acquire (clock w) (pools w !!! pid) with
    | Pool.Acquired b p' => (Ok b, set_pool pid p' w1)
    | Pool.WouldBlock =>
        (Raise (Exn (Coordination TimeoutError) "acquire timed out" None), w1)
    | Pool.AcquireClosed =>
        (Raise (Exn (Coordination ClosedError) "pool is closed" None), w1)
    end.

(** Modelled from the spec: [aiosqlite/pool.py] is missing; the call
    [await pool.release(raw)] of section 4.3.  The two refusals are
    programming errors of the [InvalidStateError] kind. *)
Definition pool_release (pid : nat) (raw : Bridge.t) : M World unit :=
  fun w =>
    let w1 := log_call (CallRelease pid (Bridge.bid raw)) w in
    match Pool.release (clock w) raw (pools w !!! pid) with
    | Pool.Released p' => (Ok tt, set_pool pid p' w1)
    | Pool.NotCheckedOut =>
        (Raise (Exn (Coordination InvalidStateError)
                  "connection does not belong to the pool" None), w1)
    | Pool.InTransaction =>
        (Raise (Exn (Coordination InvalidStateError)
                  "connection has an unfinished transaction" None), w1)
    end.

(** [asyncio.create_task(coro)]: the coroutine is queued on the running
    loop, nothing of it runs yet.  (The engine's methods are called from
    coroutines, so there is a running loop.) *)
Definition create_task (t : Task) : M World nat :=
  fun w =>
    let id := next_object w in
    (Ok id,
     {| pools := pools w; transactions := transactions w;
        tasks := tasks w ++ [(id, t)]; settled := settled w;
        calls := calls w; clock := clock w; next_object := S id |}).

Definition run_task_body (t : Task) : M World unit :=
  match t with
  | TaskPoolRelease pid raw => pool_release pid raw
  end.

(** One turn of the event loop: the oldest pending task runs; what it
    raises is stored in the task, not raised to anyone. *)
Definition loop_step (w : World) : World :=
  match tasks w with
  | [] => w
  | (id, t) :: rest =>
      let (r, w1) :=
        run_task_body t
          {| pools := pools w; transactions := transactions w;
             tasks := rest; settled := settled w; calls := calls w;
             clock := clock w; next_object := next_object w |} in
      {| pools := pools w1; transactions := transactions w1;
         tasks := tasks w1; settled := settled w1 ++ [(id, raised r)];
         calls := calls w1; clock := clock w1;
         next_object := next_object w1 |}
  end.

Fixpoint loop_steps (n : nat) (w : World) : World :=
  match n with
  | 0 => w
  | S n' => loop_steps n' (loop_step w)
  end.

(** [await fut] for a task of the loop: the loop runs what is pending, then
    the task's outcome is the outcome of the [await]. *)
Definition await_task (fut : nat) : M World unit :=
  fun w =>
    let w1 := loop_steps (length (tasks w)) w in
    match (list_to_map (settled w1) : gmap nat (option exn)) !! fut with
    | Some (Some e) => (Raise e, w1)
    | _ => (Ok tt, w1)
    end.

(** A coroutine object: its body and whether it has been awaited.  Awaiting
    it a second time raises [RuntimeError]. *)
Record Coroutine (A : Type) := {
  coro_body : M World A;
  coro_awaited : bool;
}.
Arguments coro_body {A} c.
Arguments coro_awaited {A} c.

Definition coroutine {A} (body : M World A) : Coroutine A :=
  {| coro_body := body; coro_awaited := false |}.

(** [await coro], on the state made of the coroutine object and the
    world. *)
Definition await_coro {A} : M (Coroutine A * World) A :=
  fun cw =>
    let (c, w) := cw in
    if coro_awaited c then
      (Raise (Exn RuntimeError "cannot reuse already awaited coroutine" None),
       (c, w))
    else
      let (r, w1) := coro_body c w in
      (r, ({| coro_body := coro_body c; coro_awaited := true |}, w1)).

(** ** The wrappers of [aiosqlite.utils] *)

Module utils.

Module _PoolContextManager.
(** Modelled from the spec: [aiosqlite/utils.py] is missing; the wrapper of
    a pending engine creation (section 3, "Scoped Acquisition Wrapper"),
    holding the pending coroutine and the value once it is there. *)
Record t := {
  _coro : Coroutine Engine;
  _obj : option Engine;
}.
End _PoolContextManager.

Module _PoolAcquireContextManager.
(** Modelled from the spec: [aiosqlite/utils.py] is missing; the wrapper of
    a pending acquisition, built as [_PoolAcquireContextManager(coro, pool)].
    It holds the pending coroutine, the connection once acquired and the
    object to release it to. *)
Record t := {
  _coro : Coroutine SAConnection;
  _conn : option SAConnection;
  _pool : option Engine;
}.
End _PoolAcquireContextManager.

End utils.

(** ** [class Engine] *)

Module Engine.

Definition __init__ (dialect : Dialect.t) (pool : nat) (dsn : option string)
  : Engine :=
  {| _dialect := dialect; _pool := pool; _dsn := dsn |}.

(** The Pool object [self._pool] refers to. *)
Definition pool_of (self : Engine) (w : World) : Pool.t :=
  pools w !!! _pool self.

Definition dialect (self : Engine) : Dialect.t := _dialect self.

Definition name (self : Engine) : string := Dialect.name (_dialect self).

Definition driver (self : Engine) : string := Dialect.driver (_dialect self).

Definition dsn (self : Engine) : option string := _dsn self.

Definition timeout (self : Engine) (w : World) : Z :=
  Pool.timeout (pool_of self w).

Definition minsize (self : Engine) (w : World) : nat :=
  Pool.minsize (pool_of self w).

Definition maxsize (self : Engine) (w : World) : nat :=
  Pool.maxsize (pool_of self w).

Definition size (self : Engine) (w : World) : nat :=
  Pool.size (pool_of self w).

Definition freesize (self : Engine) (w : World) : nat :=
  Pool.freesize (pool_of self w).

Definition closed (self : Engine) (w : World) : bool :=
  Pool.closed (pool_of self w).

Definition close (self : Engine) : M World unit :=
  fun w => (Ok tt, set_pool (_pool self) (Pool.close (pool_of self w)) w).

Definition terminate (self : Engine) : M World unit :=
  fun w => (Ok tt, set_pool (_pool self) (Pool.terminate (pool_of self w)) w).

Definition _acquire (self : Engine) : M World SAConnection :=
  let! raw := pool_acquire (_pool self) in
  let! conn := SAConnection_new raw self in
  ret conn.

Definition acquire (self : Engine) : utils._PoolAcquireContextManager.t :=
  let coro := coroutine (_acquire self) in
  {| utils._PoolAcquireContextManager._coro := coro;
     utils._PoolAcquireContextManager._conn := None;
     utils._PoolAcquireContextManager._pool := Some self |}.

(** [release]: the argument is whatever the caller passes, [None] included
    (reading [in_transaction] off [None] raises [AttributeError]).  The
    result is the task created for [self._pool.release(raw)]. *)
Definition release (self : Engine) (conn : option SAConnection)
  : M World nat :=
  match conn with
  | None =>
      raise (Exn AttributeError
               "'NoneType' object has no attribute 'in_transaction'" None)
  | Some c =>
      let! tx := gets (in_transaction c) in
      if (tx : bool) then
        raise (Exn InvalidRequestError
                 "Cannot release a connection with not finished transaction"
                 None)
      else
        let raw := connection c in
        let! fut := create_task (TaskPoolRelease (_pool self) raw) in
        ret fut
  end.

(** The message of [__enter__]: ["await" should be used as context manager
    expression], the first word in double quotes. *)
Definition enter_message : string :=
  String "034"%char "await" ++
  String "034"%char " should be used as context manager expression".

Definition __enter__ {V : Type} (self : Engine) : M World V :=
  raise (Exn RuntimeError enter_message None).

Definition __exit__ (self : Engine) (args : option exn) : M World unit :=
  ret tt.

Definition __await__ (self : Engine) : M World _ConnectionContextManager :=
  let! conn := _acquire self in
  ret {| _engine := Some self; _conn := Some conn |}.

End Engine.

(** ** [class _ConnectionContextManager] *)

Module _ConnectionContextManager.

Definition __init__ (engine : Engine) (conn : SAConnection)
  : _ConnectionContextManager :=
  {| _engine := Some engine; _conn := Some conn |}.

Definition __enter__ : M (_ConnectionContextManager * World)
                         (option SAConnection) :=
  gets (fun s => _conn (fst s)).

(** The [finally] suite of [__exit__]. *)
Definition clear : M (_ConnectionContextManager * World) unit :=
  modify (fun s => ({| _engine := None; _conn := None |}, snd s)).

(** [self._engine.release(self._conn)]: the attribute lookup on
    [self._engine] comes first and fails on [None]. *)
Definition call_release : M (_ConnectionContextManager * World) nat :=
  fun s =>
    match _engine (fst s) with
    | None =>
        (Raise (Exn AttributeError
                  "'NoneType' object has no attribute 'release'" None), s)
    | Some e => lift_snd (Engine.release e (_conn (fst s))) s
    end.

Definition __exit__ (args : option exn)
  : M (_ConnectionContextManager * World) unit :=
  try_finally (run! call_release in ret tt) clear.

End _ConnectionContextManager.

(** ** The [with] statement *)

(** An object usable in [with]: [__enter__] and [__exit__], on the state
    made of the object and the world.  [cm_exit] is given the exception in
    flight, if any, and answers whether it asks to suppress it (the truth
    value of what [__exit__] returns). *)
Class ContextManager (T V : Type) := {
  cm_enter : M (T * World) V;
  cm_exit : option exn -> M (T * World) bool;
}.

#[global] Instance Engine_cm {V} : ContextManager Engine V := {|
  cm_enter := fun s => lift_snd (Engine.__enter__ (fst s)) s;
  cm_exit := fun args s =>
    lift_snd (run! Engine.__exit__ (fst s) args in ret false) s;
|}.

#[global] Instance Connection_cm
  : ContextManager _ConnectionContextManager (option SAConnection) := {|
  cm_enter := _ConnectionContextManager.__enter__;
  cm_exit := fun args =>
    run! _ConnectionContextManager.__exit__ args in ret false;
|}.

(** [with mgr as v: body].  The body works on the world and has no name for
    the manager.  The statement yields the body's value, or nothing when
    [__exit__] suppressed the body's exception.  An exception raised by
    [__exit__] while the body's one is in flight is the one that propagates,
    with the body's one as its context. *)
Definition with_stmt {T V A} `{ContextManager T V} (body : V -> M World A)
  : M (T * World) (option A) :=
  fun s =>
    match cm_enter s with
    | (Raise e, s1) => (Raise e, s1)
    | (Ok v, s1) =>
        match lift_snd (body v) s1 with
        | (Ok a, s2) =>
            match cm_exit None s2 with
            | (Ok _, s3) => (Ok (Some a), s3)
            | (Raise ex, s3) => (Raise ex, s3)
            end
        | (Raise eb, s2) =>
            match cm_exit (Some eb) s2 with
            | (Ok true, s3) => (Ok None, s3)
            | (Ok false, s3) => (Raise eb, s3)
            | (Raise ex, s3) => (Raise (with_context ex (Some eb)), s3)
            end
        end
    end.

(** The idiom of [Engine.__await__]'s comment:
    [with (await engine) as conn: body]. *)
Definition with_await_engine {A} (e : Engine)
  (body : option SAConnection -> M World A) : M World (option A) :=
  fun w =>
    match Engine.__await__ e w with
    | (Raise ex, w1) => (Raise ex, w1)
    | (Ok cm, w1) =>
        let (r, s) := with_stmt body (cm, w1) in (r, snd s)
    end.

(** What a used [_ConnectionContextManager] may still be asked to do. *)
Inductive ScopeOp :=
  | Enter
  | Exit (args : option exn).

Definition scope_step (o : ScopeOp)
  (s : _ConnectionContextManager * World) : _ConnectionContextManager * World :=
  match o with
  | Enter => snd (_ConnectionContextManager.__enter__ s)
  | Exit args => snd (_ConnectionContextManager.__exit__ args s)
  end.

Definition scope_run (ops : list ScopeOp)
  (s : _ConnectionContextManager * World) : _ConnectionContextManager * World :=
  foldl (fun q o => scope_step o q) s ops.

(** ** [_EngineAcquireContextManager] *)

Module _EngineAcquireContextManager.
Import utils._PoolAcquireContextManager.

Definition t : Type := utils._PoolAcquireContextManager.t.

(** Await the wrapped coroutine, keeping the wrapper's other fields. *)
Definition await_wrapped : M (t * World) SAConnection :=
  fun s =>
    let (self, w) := s in
    let (r, cw) := await_coro (_coro self, w) in
    (r, ({| _coro := fst cw; _conn := _conn self; _pool := _pool self |},
         snd cw)).

(** Modelled from the spec: [aiosqlite/utils.py] is missing; the "resolve"
    operation of section 9, and the entering of section 4.4 that "acquires
    (or reuses the already-acquired value, if the wrapper was already
    awaited)".  Both delegate to the one wrapped coroutine. *)
Definition resolve : M (t * World) SAConnection :=
  fun s =>
    match _conn (fst s) with
    | Some c => (Ok c, s)
    | None =>
        match await_wrapped s with
        | (Ok c, (self, w)) =>
            (Ok c, ({| _coro := _coro self; _conn := Some c;
                       _pool := _pool self |}, w))
        | (Raise e, s1) => (Raise e, s1)
        end
    end.

Definition __aenter__ : M (t * World) SAConnection := resolve.

Definition clear : M (t * World) unit :=
  modify (fun s => ({| _coro := _coro (fst s); _conn := None;
                       _pool := None |}, snd s)).

(** [await self._pool.release(self._conn)] *)
Definition call_release : M (t * World) unit :=
  fun s =>
    match _pool (fst s) with
    | None =>
        (Raise (Exn AttributeError
                  "'NoneType' object has no attribute 'release'" None), s)
    | Some e =>
        lift_snd (let! fut := Engine.release e (_conn (fst s)) in
                  await_task fut) s
    end.

(** Modelled from the spec: [aiosqlite/utils.py] is missing; the scoped
    exit of section 4.4, which "always attempts release exactly once" and
    after which the wrapper holds no reference. *)
Definition __aexit__ (args : option exn) : M (t * World) unit :=
  try_finally call_release clear.

Inductive Op :=
  | Resolve
  | AEnter
  | AExit (args : option exn).

Definition step (o : Op) (s : t * World) : t * World :=
  match o with
  | Resolve => snd (resolve s)
  | AEnter => snd (__aenter__ s)
  | AExit args => snd (__aexit__ args s)
  end.

Definition run (ops : list Op) (s : t * World) : t * World :=
  foldl (fun q o => step o q) s ops.

(** What a wrapper may still start: one acquisition while its coroutine has
    not been awaited, none afterwards. *)
Definition budget (self : t) : nat :=
  if coro_awaited (_coro self) then 0 else 1.

(** The wrapper wraps [e]'s acquisition. *)
Definition wraps (e : Engine) (self : t) : Prop :=
  coro_body (_coro self) = Engine._acquire e.

End _EngineAcquireContextManager.

(** The number of [acquire] calls the Pools have received. *)
Definition is_acquire (c : PoolCall) : bool :=
  match c with
  | CallAcquire _ => true
  | CallRelease _ _ => false
  end.

Definition acquisitions (w : World) : nat :=
  length (filter (fun c => is_acquire c = true) (calls w)).

(** ** Module-level functions of [engine.py] *)

(** Modelled from the spec: [aiosqlite/pool.py] is missing; the call
    [aiosqlite.create_pool(dsn, minsize=..., maxsize=..., timeout=...,
    pool_recycle=...)], awaited: a new Pool object enters the world.  The
    engine passes its recycle age under the name [pool_recycle]; a rejected
    construction raises. *)
Definition create_pool (dsn : option string) (minsize maxsize : nat)
  (timeout pool_recycle : Z) : M World nat :=
  fun w =>
    match Pool.create (clock w) minsize maxsize timeout pool_recycle with
    | Some p =>
        let (r, w1) := new_object w in
        (Ok (next_object w), set_pool (next_object w) p w1)
    | None =>
        (Raise (Exn ValueError "maxsize should be not less than minsize" None),
         w)
    end.

Section Defaults.

(** [json.dumps] of the standard library and the constant [TIMEOUT] of
    [aiosqlite.core]. *)
Variable json_dumps : pyval -> string.
Variable TIMEOUT : Z.

(** An argument left out is [None]; the defaults are those of the [def]
    line. *)
Definition get_dialect
  (json_serializer json_deserializer : option (pyval -> pyval)) : Dialect.t :=
  let json_serializer :=
    default (fun x => PyStr (json_dumps x)) json_serializer in
  let json_deserializer := default (fun x => x) json_deserializer in
  let dialect :=
    Dialect.SQLiteDialect_pysqlite json_serializer json_deserializer in
  dialect.

(** The module's [_dialect = get_dialect()]; [Engine] has an attribute of
    that name, hence the longer one here. *)
Definition default_dialect : Dialect.t := get_dialect None None.

Definition _create_engine (dsn : option string) (minsize maxsize : option nat)
  (dialect : option Dialect.t) (timeout pool_recycle : option Z)
  : M World Engine :=
  let minsize := default 1 minsize in
  let maxsize := default 10 maxsize in
  let dialect := default default_dialect dialect in
  let timeout := default TIMEOUT timeout in
  let pool_recycle := default (-1)%Z pool_recycle in
  let! pool := create_pool dsn minsize maxsize timeout pool_recycle in
  let! conn := pool_acquire pool in
  try_finally (ret (Engine.__init__ dialect pool dsn))
              (pool_release pool conn).

Definition create_engine (dsn : option string) (minsize maxsize : option nat)
  (dialect : option Dialect.t) (timeout pool_recycle : option Z)
  : utils._PoolContextManager.t :=
  let coro :=
    coroutine (_create_engine dsn minsize maxsize dialect timeout pool_recycle)
  in
  {| utils._PoolContextManager._coro := coro;
     utils._PoolContextManager._obj := None |}.

End Defaults.

(** ** Sample objects *)

Module Sample.

Definition pool : Pool.t := default inhabitant (Pool.create 0 1 2 30 (-1)).

Definition dialect : Dialect.t := default_dialect (fun _ => "null").

Definition an_engine : Engine := Engine.__init__ dialect 0 None.

Definition world : World :=
  {| pools := {[ 0 := pool ]}; transactions := ∅; tasks := []; settled := [];
     calls := []; clock := 5; next_object := 1 |}.

(** The connection [await an_engine] hands out in [world]: the first object
    created there, on the Pool's pre-opened Bridge. *)
Definition conn : SAConnection :=
  {| sa_id := 1; connection := Bridge.open 0 0; engine := an_engine |}.

(** The world once connection [c] has begun a transaction. *)
Definition begin (c : option SAConnection) (w : World) : World :=
  {| pools := pools w;
     transactions :=
       match c with
       | Some c => {[ sa_id c ]} ∪ transactions w
       | None => transactions w
       end;
     tasks := tasks w; settled := settled w; calls := calls w;
     clock := clock w; next_object := next_object w |}.

Definition boom : exn := Exn ValueError "boom" None.

(** A block that begins a transaction on its connection and fails before
    finishing it. *)
Definition failing_block (c : option SAConnection) : M World nat :=
  fun w => (Raise boom, begin c w).

(** Two callers submit, the worker serves both, the Bridge is closed. *)
Definition bridge_run : list Bridge.Label :=
  [Bridge.Submit 1 (Bridge.Execute "insert");
   Bridge.Submit 2 Bridge.Commit;
   Bridge.Take;
   Bridge.Submit 1 (Bridge.Execute "select");
   Bridge.Fulfil {| Bridge.outcome := Bridge.Value "1";
                    Bridge.in_transaction_after := true |};
   Bridge.Take;
   Bridge.Fulfil {| Bridge.outcome := Bridge.Value "";
                    Bridge.in_transaction_after := false |};
   Bridge.BeginClose;
   Bridge.Submit 2 Bridge.Rollback;
   Bridge.Drain;
   Bridge.Shutdown].

Definition bridge_end : Bridge.t :=
  Eval vm_compute in
    default (Bridge.open 0 0) (Bridge.run bridge_run (Bridge.open 0 0)).


End Sample.

(** ** Outcomes named in the statements *)

Definition release_error : exn :=
  Exn InvalidRequestError
    "Cannot release a connection with not finished transaction" None.

Definition cleared : _ConnectionContextManager :=
  {| _engine := None; _conn := None |}.

Definition no_release_attribute : exn :=
  Exn AttributeError "'NoneType' object has no attribute 'release'" None.

(** What comes out of the block when the body ended with [rb] and the
    release with [rr]. *)
Definition block_outcome {A B} (rb : Result A) (rr : Result B)
  : Result (option A) :=
  match rr, rb with
  | Ok _, Ok a => Ok (Some a)
  | Ok _, Raise eb => Raise eb
  | Raise er, _ => Raise (with_context er (raised rb))
  end.

(** The idiom [Engine.__await__]'s comment gives as the long form:
    [conn = await engine.acquire()], then [try: body finally:
    engine.release(conn)]. *)
Definition acquire_try_finally {A} (e : Engine)
  (body : option SAConnection -> M World A) : M World A :=
  fun w =>
    match _EngineAcquireContextManager.resolve (Engine.acquire e, w) with
    | (Ok conn, s) =>
        try_finally (body (Some conn))
                    (run! Engine.release e (Some conn) in ret tt) (snd s)
    | (Raise x, s) => (Raise x, snd s)
    end.

(** The outcome of a statement whose block ended with [r] and was not
    suppressed. *)
Definition block_result {A} (r : Result A) : Result (option A) :=
  match r with
  | Ok a => Ok (Some a)
  | Raise x => Raise x
  end.

(** The world with another task queue and object counter. *)
Definition requeue (ts : list (nat * Task)) (n : nat) (w : World) : World :=
  {| pools := pools w; transactions := transactions w;
     tasks := ts; settled := settled w; calls := calls w;
     clock := clock w; next_object := n |}.

(** The event loop running every task that is pending. *)
Definition drain (w : World) : World := loop_steps (length (tasks w)) w.

Definition pool_closed_error : exn :=
  Exn (Coordination ClosedError) "pool is closed" None.

(** Modelled from the spec: [aiosqlite/utils.py] is missing; what entering
    one of its wrappers with a plain [with] does.  By section 4.4 such
    misuse "must fail loudly with a descriptive error rather than silently
    proceeding with a partially-initialized resource"; by section 7 the
    error is an [InvalidStateError].  The message is taken to be the
    Engine's. *)
Definition sync_enter_error : exn :=
  Exn (Coordination InvalidStateError) Engine.enter_message None.

Definition wrapper_sync_enter {T V : Type} : M (T * World) V :=
  raise sync_enter_error.

(** Never reached, since entering fails: nothing to do, nothing to
    suppress. *)
Definition wrapper_sync_exit {T : Type} (args : option exn)
  : M (T * World) bool :=
  ret false.

#[global] Instance Acquire_cm {V}
  : ContextManager utils._PoolAcquireContextManager.t V := {|
  cm_enter := wrapper_sync_enter;
  cm_exit := wrapper_sync_exit;
|}.

#[global] Instance Create_cm {V}
  : ContextManager utils._PoolContextManager.t V := {|
  cm_enter := wrapper_sync_enter;
  cm_exit := wrapper_sync_exit;
|}.



(** * Properties *)

(** ** The facade's observations *)

Lemma pool_of_set_pool (e : Engine) (p : Pool.t) (w : World) :
  Engine.pool_of e (set_pool (_pool e) p w) = p.
Proof.
  unfold Engine.pool_of, set_pool; simpl. apply lookup_total_insert_eq.
Qed.

(** C8: whatever the state [p] of the Pool an Engine refers to, the Engine's
    [size], [freesize], [minsize], [maxsize], [timeout] and [closed] are the
    Pool's properties of the same name, and [name] and [driver] are the
    dialect's. *)
Theorem engine_properties_delegate (e : Engine) (p : Pool.t) (w : World) :
  let w' := set_pool (_pool e) p w in
  Engine.size e w' = Pool.size p ∧
  Engine.freesize e w' = Pool.freesize p ∧
  Engine.minsize e w' = Pool.minsize p ∧
  Engine.maxsize e w' = Pool.maxsize p ∧
  Engine.timeout e w' = Pool.timeout p ∧
  Engine.closed e w' = Pool.closed p ∧
  Engine.name e = Dialect.name (Engine.dialect e) ∧
  Engine.driver e = Dialect.driver (Engine.dialect e).
Proof.
  intros w'.
  unfold Engine.size, Engine.freesize, Engine.minsize, Engine.maxsize,
    Engine.timeout, Engine.closed.
  subst w'. rewrite pool_of_set_pool.
  repeat split.
Qed.

(** ** Releasing through the facade *)

Lemma release_in_transaction (e : Engine) (c : SAConnection) (w : World) :
  in_transaction c w = true ->
  Engine.release e (Some c) w = (Raise release_error, w).
Proof.
  intros Htx. unfold Engine.release, bind, gets. rewrite Htx. reflexivity.
Qed.

Lemma release_not_in_transaction (e : Engine) (c : SAConnection) (w : World) :
  in_transaction c w = false ->
  Engine.release e (Some c) w =
    create_task (TaskPoolRelease (_pool e) (connection c)) w.
Proof.
  intros Htx. unfold Engine.release, bind, gets. rewrite Htx.
  unfold create_task, ret. reflexivity.
Qed.

(** C1: releasing a connection whose [in_transaction] flag is set raises
    [InvalidRequestError] (an [InvalidStateError] in the taxonomy) and hands
    back the world it was given: no Pool object has changed or been called,
    no task has been queued for the loop, and the set of unfinished
    transactions is the same. *)
Theorem release_in_transaction_raises
  (e : Engine) (c : SAConnection) (w : World) :
  in_transaction c w = true ->
  let (r, w') := Engine.release e (Some c) w in
  r = Raise release_error ∧
  kind (exn_cls release_error) = Some InvalidStateError ∧
  w' = w ∧
  Pool.idle (Engine.pool_of e w') = Pool.idle (Engine.pool_of e w) ∧
  Pool.in_use (Engine.pool_of e w') = Pool.in_use (Engine.pool_of e w) ∧
  Engine.size e w' = Engine.size e w ∧
  Engine.freesize e w' = Engine.freesize e w ∧
  in_transaction c w' = true.
Proof.
  intros Htx. rewrite (release_in_transaction e c w Htx).
  repeat split; assumption.
Qed.

Lemma release_in_transaction_raises_witness :
  let w := Sample.begin (Some Sample.conn) Sample.world in
  in_transaction Sample.conn w = true ∧
  let (r, w') := Engine.release Sample.an_engine (Some Sample.conn) w in
  r = Raise release_error ∧
  kind (exn_cls release_error) = Some InvalidStateError ∧
  w' = w ∧
  Pool.idle (Engine.pool_of Sample.an_engine w') =
    Pool.idle (Engine.pool_of Sample.an_engine w) ∧
  Pool.in_use (Engine.pool_of Sample.an_engine w') =
    Pool.in_use (Engine.pool_of Sample.an_engine w) ∧
  Engine.size Sample.an_engine w' = Engine.size Sample.an_engine w ∧
  Engine.freesize Sample.an_engine w' = Engine.freesize Sample.an_engine w ∧
  in_transaction Sample.conn w' = true.
Proof.
  split.
  - reflexivity.
  - apply (release_in_transaction_raises Sample.an_engine Sample.conn
             (Sample.begin (Some Sample.conn) Sample.world)).
    reflexivity.
Defined.

(** ** Entering the Engine itself *)

(** C6: entering a wrapper with a plain [with], without the asynchronous
    step, fails with a descriptive [InvalidStateError], for the Engine
    ([__enter__] of the source, a [RuntimeError] naming [await]) and for the
    two wrappers of [utils] alike.  The statement's outcome is the same for
    every block, so the block never runs; the wrapper and the world are as
    before, so nothing is acquired and the pending coroutine of
    [engine.acquire()] is not started.  The one manager that can be entered
    is the one [await engine] returns, and it holds the engine and the
    connection just acquired. *)
Theorem engine_enter_raises {V A : Type}
  (e : Engine) (w : World) (body : V -> M World A)
  (acq : utils._PoolAcquireContextManager.t)
  (cre : utils._PoolContextManager.t) :
  with_stmt body (e, w) =
    (Raise (Exn RuntimeError Engine.enter_message None), (e, w)) ∧
  with_stmt body (acq, w) = (Raise sync_enter_error, (acq, w)) ∧
  with_stmt body (cre, w) = (Raise sync_enter_error, (cre, w)) ∧
  (∀ v : V, fst (Engine.__enter__ (V := V) e w) ≠ Ok v) ∧
  kind RuntimeError = Some InvalidStateError ∧
  kind (exn_cls sync_enter_error) = Some InvalidStateError ∧
  Engine.enter_message ≠ "" ∧
  coro_awaited
    (utils._PoolAcquireContextManager._coro
       (fst (snd (with_stmt body (Engine.acquire e, w))))) = false ∧
  acquisitions (snd (snd (with_stmt body (Engine.acquire e, w)))) =
    acquisitions w ∧
  match Engine.__await__ e w with
  | (Ok cm, w1) =>
      ∃ c, cm = _ConnectionContextManager.__init__ e c ∧
           _ConnectionContextManager.__enter__ (cm, w1) =
             (Ok (Some c), (cm, w1))
  | (Raise _, _) => True
  end.
Proof.
  do 9 (split; [reflexivity || discriminate|]).
  unfold Engine.__await__, bind.
  destruct (Engine._acquire e w) as [[c|x] w1]; [|exact I].
  exists c. split; reflexivity.
Qed.

(** ** The scoped exit of [_ConnectionContextManager] *)

(** [__exit__] spelled out: the outcome is that of the one call of
    [release], the manager ends up cleared. *)
Lemma exit_unfold (cm : _ConnectionContextManager) (args : option exn)
  (w : World) :
  _ConnectionContextManager.__exit__ args (cm, w) =
    match _engine cm with
    | None => (Raise no_release_attribute, (cleared, w))
    | Some e =>
        let (r, w1) := Engine.release e (_conn cm) w in
        (match r with Ok _ => Ok tt | Raise x => Raise x end, (cleared, w1))
    end.
Proof.
  unfold _ConnectionContextManager.__exit__, try_finally, bind,
    _ConnectionContextManager.call_release, _ConnectionContextManager.clear,
    modify, lift_snd, ret; simpl.
  destruct (_engine cm) as [e|]; [|reflexivity].
  destruct (Engine.release e (_conn cm) w) as [[fut|x] w1]; reflexivity.
Qed.

Lemma exit_cleared (args : option exn) (w : World) :
  _ConnectionContextManager.__exit__ args (cleared, w) =
    (Raise no_release_attribute, (cleared, w)).
Proof. rewrite exit_unfold. reflexivity. Qed.

Lemma scope_run_cleared (ops : list ScopeOp) (w : World) :
  scope_run ops (cleared, w) = (cleared, w).
Proof.
  induction ops as [|o ops IH]; [reflexivity|].
  change (scope_run (o :: ops) (cleared, w))
    with (scope_run ops (scope_step o (cleared, w))).
  destruct o as [|args]; unfold scope_step.
  - exact IH.
  - rewrite exit_cleared. exact IH.
Qed.

(** C10: when [__exit__] has run, with [release] succeeding or raising, both
    slots are [None].  From then on another exit raises [AttributeError]
    before it reaches [release], entering again yields [None], and no
    sequence of enters and exits changes the world: the connection is not
    released a second time. *)
Theorem exit_clears_references
  (cm : _ConnectionContextManager) (args : option exn) (w : World) :
  let s := snd (_ConnectionContextManager.__exit__ args (cm, w)) in
  _engine (fst s) = None ∧
  _conn (fst s) = None ∧
  (∀ args', _ConnectionContextManager.__exit__ args' s =
              (Raise no_release_attribute, s)) ∧
  _ConnectionContextManager.__enter__ s = (Ok None, s) ∧
  (∀ ops, scope_run ops s = s).
Proof.
  rewrite exit_unfold.
  destruct (_engine cm) as [e|]; simpl.
  - destruct (Engine.release e (_conn cm) w) as [r w1]; simpl.
    repeat split; intros; auto using exit_cleared, scope_run_cleared.
  - repeat split; intros; auto using exit_cleared, scope_run_cleared.
Qed.

(** ** The scoped block *)

(** C2 (amended): in [with cm as conn: body], on every exit path, a
    manager that still holds its engine (every manager [await engine]
    returns, until its first exit) calls [release] exactly once, on the
    world the body left; a release that fails is what the block raises,
    with the body's exception, if any, kept as its context; a release that
    succeeds leaves the body's outcome as it is.  The one call either
    refuses (transaction unfinished or no connection, world untouched) or
    queues exactly one task for the Pool.  A manager that has been exited
    before holds no engine: its exit raises [AttributeError] without
    calling [release], again with the body's exception as context. *)
Theorem scoped_exit_releases_once {A : Type}
  (cm : _ConnectionContextManager)
  (body : option SAConnection -> M World A) (w : World) :
  let (rb, wb) := body (_conn cm) w in
  match _engine cm with
  | Some e =>
      let (rr, wr) := Engine.release e (_conn cm) wb in
      with_stmt body (cm, w) = (block_outcome rb rr, (cleared, wr)) ∧
      match _conn cm with
      | Some c =>
          if in_transaction c wb
          then rr = Raise release_error ∧ wr = wb
          else raised rr = None ∧
               tasks wr =
                 (tasks wb ++
                    [(next_object wb,
                      TaskPoolRelease (_pool e) (connection c))])%list ∧
               pools wr = pools wb ∧ calls wr = calls wb
      | None => raised rr ≠ None ∧ wr = wb
      end
  | None =>
      with_stmt body (cm, w) =
        (block_outcome rb (Raise no_release_attribute : Result nat),
         (cleared, wb))
  end.
Proof.
  destruct (body (_conn cm) w) as [rb wb] eqn:Hb.
  assert (Hwith : with_stmt body (cm, w) =
    match _engine cm with
    | Some e =>
        (block_outcome rb (fst (Engine.release e (_conn cm) wb)),
         (cleared, snd (Engine.release e (_conn cm) wb)))
    | None =>
        (block_outcome rb (Raise no_release_attribute : Result nat),
         (cleared, wb))
    end).
  { unfold with_stmt, cm_enter, cm_exit, Connection_cm,
      _ConnectionContextManager.__enter__, gets, lift_snd, bind, ret.
    cbn [fst snd]. rewrite Hb.
    destruct rb as [a|eb]; rewrite exit_unfold;
      (destruct (_engine cm) as [e|]; [|reflexivity]);
      destruct (Engine.release e (_conn cm) wb) as [[fut|er] wr];
      reflexivity. }
  destruct (_engine cm) as [e|]; [|exact Hwith].
  destruct (Engine.release e (_conn cm) wb) as [rr wr] eqn:Hr.
  split; [exact Hwith|].
  destruct (_conn cm) as [c|].
  - destruct (in_transaction c wb) eqn:Htx.
    + rewrite (release_in_transaction e c wb Htx) in Hr.
      inversion Hr; subst. split; reflexivity.
    + rewrite (release_not_in_transaction e c wb Htx) in Hr.
      unfold create_task in Hr. inversion Hr; subst. simpl.
      repeat split.
  - cbn in Hr. inversion Hr; subst. split; [discriminate|reflexivity].
Qed.

(** C2 (as stated) fails twice over.  In [with (await engine) as conn:] the
    block [failing_block] raises [boom] with its transaction unfinished, so
    the release fails too, and what the [with] statement raises is the
    release's [InvalidRequestError]; [boom] is only its context.  And a
    manager used for a second block, after a first one that went well,
    raises [AttributeError] at exit and queues no release at all. *)
Lemma body_error_does_not_take_priority :
  match Engine.__await__ Sample.an_engine Sample.world with
  | (Ok cm, w) =>
      _conn cm = Some Sample.conn ∧
      fst (Sample.failing_block (_conn cm) w) = Raise Sample.boom ∧
      fst (Engine.release Sample.an_engine (_conn cm)
             (snd (Sample.failing_block (_conn cm) w))) =
        Raise release_error ∧
      fst (with_stmt Sample.failing_block (cm, w)) =
        Raise (Exn InvalidRequestError
                 "Cannot release a connection with not finished transaction"
                 (Some Sample.boom)) ∧
      fst (with_stmt Sample.failing_block (cm, w)) ≠ Raise Sample.boom ∧
      let first := with_stmt (fun _ => ret 0) (cm, w) in
      let second := with_stmt (fun _ => ret 0) (snd first) in
      fst first = Ok (Some 0) ∧
      length (tasks (snd (snd first))) = S (length (tasks w)) ∧
      fst second = Raise no_release_attribute ∧
      tasks (snd (snd second)) = tasks (snd (snd first))
  | (Raise _, _) => False
  end ∧
  fst (with_await_engine Sample.an_engine Sample.failing_block Sample.world) =
    Raise (with_context release_error (Some Sample.boom)).
Proof.
  vm_compute. repeat split. discriminate.
Qed.

(** ** The default dialect *)

Lemma pool_release_checked_out (now : Z) (b : Bridge.t) (p : Pool.t) :
  Bridge.bid b ∈ Pool.in_use p ->
  Bridge.in_transaction b = false ->
  ∃ p', Pool.release now b p = Pool.Released p'.
Proof.
  intros Hin Htx. unfold Pool.release.
  rewrite bool_decide_eq_true_2 by exact Hin.
  rewrite Htx, andb_false_r.
  repeat case_match; eauto.
Qed.

(** With the default sizes the engine's creation goes through: one Bridge
    is pre-opened, acquired and given back. *)
Lemma create_engine_default_sizes (json_dumps : pyval -> string) (TIMEOUT : Z)
  (dsn : option string) (dialect : option Dialect.t)
  (timeout pool_recycle : option Z) (w : World) :
  fst (_create_engine json_dumps TIMEOUT dsn None None dialect timeout
         pool_recycle w) =
    Ok (Engine.__init__ (default (default_dialect json_dumps) dialect)
          (next_object w) dsn).
Proof.
  unfold _create_engine, bind, create_pool, pool_acquire, try_finally, ret,
    pool_release.
  cbn [default Pool.create Nat.leb Pool.open_bridges seq map new_object].
  cbn [set_pool log_call pools clock].
  rewrite lookup_total_insert_eq.
  cbn [Pool.acquire Pool.is_open Pool.state Pool.idle].
  cbn [set_pool log_call pools clock].
  rewrite lookup_total_insert_eq.
  match goal with
  | |- context [Pool.release ?n ?b ?p] =>
      destruct (pool_release_checked_out n b p) as [p' ->];
        [cbn; set_solver | reflexivity | reflexivity]
  end.
Qed.

(** C9: the dialect [get_dialect()] builds serializes with [json.dumps] and
    deserializes with the identity, so deserializing what was serialized
    gives the JSON text [json.dumps(x)] as a string, not [x]: for every [x]
    that is not itself a string the round trip differs from [x], and it is
    not the identity.  This is the dialect of an engine created without a
    [dialect] argument. *)
Theorem default_dialect_round_trip (json_dumps : pyval -> string)
  (TIMEOUT : Z) (x : pyval) :
  let d := get_dialect json_dumps None None in
  let round_trip := fun y =>
    Dialect.json_deserializer d (Dialect.json_serializer d y) in
  Dialect.json_serializer d x = PyStr (json_dumps x) ∧
  (∀ y, Dialect.json_deserializer d y = y) ∧
  round_trip x = PyStr (json_dumps x) ∧
  match x with
  | PyStr _ => True
  | _ => round_trip x ≠ x
  end ∧
  ¬ (∀ y, round_trip y = y) ∧
  (∀ dsn timeout pool_recycle w,
     fst (_create_engine json_dumps TIMEOUT dsn None None None timeout
            pool_recycle w) =
       Ok (Engine.__init__ d (next_object w) dsn)).
Proof.
  intros d round_trip. repeat split.
  - destruct x; discriminate || exact I.
  - intros H. specialize (H PyNone). discriminate.
  - intros. apply create_engine_default_sizes.
Qed.

(** ** Acquisitions are started once *)

Lemma acquisitions_app (w w' : World) (l : list PoolCall) :
  calls w' = (calls w ++ l)%list ->
  acquisitions w' =
    acquisitions w + length (filter (fun c => is_acquire c = true) l).
Proof.
  intros H. unfold acquisitions. rewrite H, filter_app, length_app. reflexivity.
Qed.

Lemma pool_acquire_calls (pid : nat) (w : World) :
  calls (snd (pool_acquire pid w)) = (calls w ++ [CallAcquire pid])%list.
Proof. unfold pool_acquire. repeat case_match; reflexivity. Qed.

Lemma pool_release_calls (pid : nat) (raw : Bridge.t) (w : World) :
  calls (snd (pool_release pid raw w)) =
    (calls w ++ [CallRelease pid (Bridge.bid raw)])%list.
Proof. unfold pool_release. repeat case_match; reflexivity. Qed.

Lemma acquire_calls (e : Engine) (w : World) :
  calls (snd (Engine._acquire e w)) = (calls w ++ [CallAcquire (_pool e)])%list.
Proof.
  unfold Engine._acquire, bind.
  pose proof (pool_acquire_calls (_pool e) w) as H.
  destruct (pool_acquire (_pool e) w) as [[raw|x] w1]; simpl in *; exact H.
Qed.

Lemma acquire_acquisitions (e : Engine) (w : World) :
  acquisitions (snd (Engine._acquire e w)) = S (acquisitions w).
Proof.
  rewrite (acquisitions_app w _ _ (acquire_calls e w)). simpl. lia.
Qed.

Lemma release_calls (e : Engine) (conn : option SAConnection) (w : World) :
  calls (snd (Engine.release e conn w)) = calls w.
Proof.
  destruct conn as [c|]; [|reflexivity].
  destruct (in_transaction c w) eqn:Htx.
  - rewrite release_in_transaction by exact Htx. reflexivity.
  - rewrite release_not_in_transaction by exact Htx. reflexivity.
Qed.

Lemma loop_step_acquisitions (w : World) :
  acquisitions (loop_step w) = acquisitions w.
Proof.
  unfold loop_step.
  destruct (tasks w) as [|[id [pid raw]] rest]; [reflexivity|].
  unfold run_task_body.
  match goal with
  | |- context [pool_release pid raw ?w0] =>
      pose proof (pool_release_calls pid raw w0) as H;
        destruct (pool_release pid raw w0) as [r w1]
  end.
  simpl in H. unfold acquisitions. simpl. rewrite H, filter_app, length_app.
  simpl. lia.
Qed.

Lemma loop_steps_acquisitions (n : nat) (w : World) :
  acquisitions (loop_steps n w) = acquisitions w.
Proof.
  revert w. induction n as [|n IH]; intros w; [reflexivity|].
  simpl. rewrite IH. apply loop_step_acquisitions.
Qed.

Lemma await_task_acquisitions (fut : nat) (w : World) :
  acquisitions (snd (await_task fut w)) = acquisitions w.
Proof.
  unfold await_task. repeat case_match; simpl; apply loop_steps_acquisitions.
Qed.

Lemma scope_step_calls (o : ScopeOp) (s : _ConnectionContextManager * World) :
  calls (snd (scope_step o s)) = calls (snd s).
Proof.
  destruct s as [cm w]. destruct o as [|args]; [reflexivity|].
  unfold scope_step. rewrite exit_unfold.
  destruct (_engine cm) as [e|]; [|reflexivity].
  pose proof (release_calls e (_conn cm) w) as H.
  destruct (Engine.release e (_conn cm) w) as [r w1]. exact H.
Qed.

Lemma scope_run_calls (ops : list ScopeOp)
  (s : _ConnectionContextManager * World) :
  calls (snd (scope_run ops s)) = calls (snd s).
Proof.
  revert s. induction ops as [|o ops IH]; intros s; [reflexivity|].
  change (scope_run (o :: ops) s) with (scope_run ops (scope_step o s)).
  rewrite IH. apply scope_step_calls.
Qed.

Module WrapperFacts.
Import utils._PoolAcquireContextManager _EngineAcquireContextManager.

Lemma await_wrapped_spends (e : Engine) (self : t) (w : World) :
  wraps e self ->
  let s' := snd (await_wrapped (self, w)) in
  wraps e (fst s') ∧
  acquisitions (snd s') + budget (fst s') = acquisitions w + budget self.
Proof.
  intros Hw. unfold await_wrapped, await_coro, budget.
  destruct (coro_awaited (_coro self)) eqn:Haw; simpl.
  - rewrite Haw. split; [exact Hw | reflexivity].
  - rewrite Hw.
    pose proof (acquire_acquisitions e w) as Hacq.
    destruct (Engine._acquire e w) as [r w1]; simpl in *.
    split; [reflexivity | lia].
Qed.

Lemma resolve_spends (e : Engine) (self : t) (w : World) :
  wraps e self ->
  let s' := snd (resolve (self, w)) in
  wraps e (fst s') ∧
  acquisitions (snd s') + budget (fst s') = acquisitions w + budget self.
Proof.
  intros Hw. unfold resolve. cbn [fst].
  destruct (_conn self) as [c|]; [split; [exact Hw | reflexivity]|].
  pose proof (await_wrapped_spends e self w Hw) as H.
  destruct (await_wrapped (self, w)) as [[c|x] [self1 w1]]; exact H.
Qed.

Lemma aexit_spends (e : Engine) (self : t) (args : option exn) (w : World) :
  wraps e self ->
  let s' := snd (__aexit__ args (self, w)) in
  wraps e (fst s') ∧
  acquisitions (snd s') + budget (fst s') = acquisitions w + budget self.
Proof.
  intros Hw. unfold __aexit__, try_finally, call_release, clear, modify,
    lift_snd, bind.
  cbn [fst snd].
  destruct (_pool self) as [e'|]; [|split; [exact Hw | reflexivity]].
  pose proof (release_calls e' (_conn self) w) as Hrel.
  destruct (Engine.release e' (_conn self) w) as [[fut|x] w1];
    cbn [fst snd] in *.
  - pose proof (await_task_acquisitions fut w1) as Hawait.
    destruct (await_task fut w1) as [r w2]; cbn [fst snd] in *.
    split; [exact Hw|].
    unfold budget; cbn [_coro]. rewrite Hawait.
    unfold acquisitions. rewrite Hrel. reflexivity.
  - split; [exact Hw|].
    unfold budget; cbn [_coro]. unfold acquisitions. rewrite Hrel. reflexivity.
Qed.

Lemma step_spends (e : Engine) (o : Op) (s : t * World) :
  wraps e (fst s) ->
  wraps e (fst (step o s)) ∧
  acquisitions (snd (step o s)) + budget (fst (step o s)) =
    acquisitions (snd s) + budget (fst s).
Proof.
  destruct s as [self w]. intros Hw. destruct o as [| |args]; unfold step.
  - apply (resolve_spends e self w Hw).
  - apply (resolve_spends e self w Hw).
  - apply (aexit_spends e self args w Hw).
Qed.

Lemma run_spends (e : Engine) (ops : list Op) (s : t * World) :
  wraps e (fst s) ->
  acquisitions (snd (run ops s)) + budget (fst (run ops s)) =
    acquisitions (snd s) + budget (fst s).
Proof.
  revert s. induction ops as [|o ops IH]; intros s Hw; [reflexivity|].
  change (run (o :: ops) s) with (run ops (step o s)).
  destruct (step_spends e o s Hw) as [Hw' Heq].
  rewrite (IH _ Hw'). exact Heq.
Qed.

End WrapperFacts.

(** C7: the wrapper [engine.acquire()] returns holds one coroutine, created
    once and not started.  Resolving or entering it runs exactly that
    acquisition, and over any sequence of resolves, enters and exits the
    Pools receive at most one more [acquire] call.  [await engine] makes
    exactly one [acquire] call, and no sequence of enters and exits of the
    manager it returns makes the Pools receive any call at all. *)
Theorem acquisition_started_at_most_once (e : Engine) (w : World)
  (ops : list _EngineAcquireContextManager.Op)
  (cm : _ConnectionContextManager) (sops : list ScopeOp) :
  let wrapper := Engine.acquire e in
  coro_awaited (utils._PoolAcquireContextManager._coro wrapper) = false ∧
  fst (_EngineAcquireContextManager.resolve (wrapper, w)) =
    fst (Engine._acquire e w) ∧
  fst (_EngineAcquireContextManager.__aenter__ (wrapper, w)) =
    fst (Engine._acquire e w) ∧
  acquisitions
    (snd (snd (_EngineAcquireContextManager.resolve (wrapper, w)))) =
    acquisitions w + 1 ∧
  (acquisitions (snd (_EngineAcquireContextManager.run ops (wrapper, w))) ≤
     acquisitions w + 1)%nat ∧
  acquisitions (snd (Engine.__await__ e w)) = acquisitions w + 1 ∧
  calls (snd (scope_run sops (cm, w))) = calls w.
Proof.
  intros wrapper.
  assert (Hw : _EngineAcquireContextManager.wraps e wrapper) by reflexivity.
  split; [reflexivity|].
  assert (Hres : fst (_EngineAcquireContextManager.resolve (wrapper, w)) =
                 fst (Engine._acquire e w)).
  { unfold _EngineAcquireContextManager.resolve,
      _EngineAcquireContextManager.await_wrapped, await_coro.
    cbn. destruct (Engine._acquire e w) as [[c|x] w1]; reflexivity. }
  split; [exact Hres|]. split; [exact Hres|].
  split; [|split; [|split]].
  - unfold _EngineAcquireContextManager.resolve,
      _EngineAcquireContextManager.await_wrapped, await_coro.
    cbn. pose proof (acquire_acquisitions e w) as H.
    destruct (Engine._acquire e w) as [[c|x] w1]; cbn in *; lia.
  - pose proof (WrapperFacts.run_spends e ops (wrapper, w) Hw) as H.
    cbn [fst snd] in H.
    unfold _EngineAcquireContextManager.budget at 2 in H. cbn in H. lia.
  - unfold Engine.__await__, bind.
    pose proof (acquire_acquisitions e w) as H.
    destruct (Engine._acquire e w) as [[c|x] w1]; cbn in *; lia.
  - apply (scope_run_calls sops (cm, w)).
Qed.

(** ** One Bridge: order and exclusion *)

Module BridgeFacts.
Import Bridge.

Lemma active_snoc_started (evs : list Event) (acc : list nat) (s : nat) :
  active (evs ++ [Started s]) acc = (active evs acc ++ [s])%list.
Proof.
  revert acc. induction evs as [|[x|x] evs IH]; intros acc; simpl;
    [reflexivity | apply IH | apply IH].
Qed.

Lemma active_snoc_finished (evs : list Event) (acc : list nat) (s : nat) :
  active (evs ++ [Finished s]) acc = filter (fun x => x ≠ s) (active evs acc).
Proof.
  revert acc. induction evs as [|[x|x] evs IH]; intros acc; simpl;
    [reflexivity | apply IH | apply IH].
Qed.

Lemma invariant_open (id : nat) (now : Z) : invariant (open id now).
Proof. split; reflexivity. Qed.

Lemma invariant_submit (op : Operation) (b : t) :
  invariant b -> invariant (snd (submit op b)).
Proof.
  intros [Hp He]. unfold submit. destruct (is_open b); [|split; assumption].
  split; [|exact He].
  unfold pipeline in *; simpl. rewrite <- Hp, map_app; simpl.
  rewrite <- !app_assoc. reflexivity.
Qed.

Lemma invariant_take (b b' : t) :
  take b = Some b' -> invariant b -> invariant b'.
Proof.
  unfold take. intros Ht [Hp He]. unfold invariant, pipeline, executing,
    inflight in *.
  destruct (status b), (worker b) as [[s o]|], (queue b) as [|[slot op] rest];
    inversion Ht; subst; clear Ht; simpl in *;
    (split; [rewrite <- Hp; reflexivity
            | rewrite active_snoc_started, He; reflexivity]).
Qed.

Lemma invariant_fulfil (r : Response) (b b' : t) :
  fulfil r b = Some b' -> invariant b -> invariant b'.
Proof.
  unfold fulfil. intros Hf [Hp He]. unfold invariant, pipeline, executing,
    inflight in *.
  destruct (worker b) as [[slot op]|]; inversion Hf; subst; clear Hf;
    simpl in *.
  split.
  - rewrite <- Hp, map_app; simpl. rewrite <- !app_assoc. reflexivity.
  - rewrite active_snoc_finished, He.
    rewrite filter_cons_False by (intros H; apply H; reflexivity).
    reflexivity.
Qed.

Lemma invariant_begin_close (b : t) : invariant b -> invariant (begin_close b).
Proof.
  unfold begin_close. destruct (is_open b); intros H; exact H.
Qed.

Lemma invariant_drain (b b' : t) :
  drain b = Some b' -> invariant b -> invariant b'.
Proof.
  unfold drain. intros Hd [Hp He]. unfold invariant, pipeline, executing,
    inflight in *.
  destruct (status b), (worker b) as [[s o]|], (queue b) as [|[slot op] rest];
    inversion Hd; subst; clear Hd; simpl in *.
  split; [|exact He].
  rewrite <- Hp, map_app; simpl. rewrite <- !app_assoc. reflexivity.
Qed.

Lemma invariant_shutdown (b b' : t) :
  shutdown b = Some b' -> invariant b -> invariant b'.
Proof.
  unfold shutdown. intros Hs [Hp He]. unfold invariant, pipeline, executing,
    inflight in *.
  destruct (status b), (worker b) as [[s o]|] eqn:Hw,
    (queue b) as [|[slot op] rest] eqn:Hq;
    inversion Hs; subst; clear Hs; simpl in *.
  split; assumption.
Qed.

Lemma invariant_step (l : Label) (b b' : t) :
  step l b = Some b' -> invariant b -> invariant b'.
Proof.
  destruct l as [caller op| |r| | |]; simpl; intros Hs Hi.
  - inversion Hs; subst. apply invariant_submit, Hi.
  - eapply invariant_take; eassumption.
  - eapply invariant_fulfil; eassumption.
  - inversion Hs; subst. apply invariant_begin_close, Hi.
  - eapply invariant_drain; eassumption.
  - eapply invariant_shutdown; eassumption.
Qed.

Lemma invariant_run (ls : list Label) (b b' : t) :
  run ls b = Some b' -> invariant b -> invariant b'.
Proof.
  revert b. induction ls as [|l ls IH]; intros b Hr Hi; simpl in Hr.
  - inversion Hr; subst. exact Hi.
  - destruct (step l b) as [b1|] eqn:Hs; [|discriminate].
    apply (IH b1 Hr). eapply invariant_step; eassumption.
Qed.

End BridgeFacts.

(** C3: in every execution of a Bridge, whatever the interleaving of the
    callers' submissions with the worker's steps, the slots fulfilled so
    far, then the one in flight, then the queued ones are the slots in
    submission order: slots are fulfilled in the order of submission, all of
    them once nothing is queued or in flight.  At every point of the
    execution at most one call has started on the handle and not finished. *)
Theorem bridge_fifo_and_exclusive (id : nat) (now : Z)
  (ls : list Bridge.Label) (b : Bridge.t) :
  Bridge.run ls (Bridge.open id now) = Some b ->
  (map fst (Bridge.fulfilled b) ++ Bridge.inflight b ++
     map fst (Bridge.queue b))%list = Bridge.submitted b ∧
  map fst (Bridge.fulfilled b) `prefix_of` Bridge.submitted b ∧
  (Bridge.queue b = [] -> Bridge.worker b = None ->
   map fst (Bridge.fulfilled b) = Bridge.submitted b) ∧
  Bridge.executing b = Bridge.inflight b ∧
  (length (Bridge.executing b) ≤ 1)%nat.
Proof.
  intros Hr.
  destruct (BridgeFacts.invariant_run ls _ b Hr
              (BridgeFacts.invariant_open id now)) as [Hp He].
  unfold Bridge.pipeline in Hp.
  split; [exact Hp|]. split; [|split; [|split]].
  - rewrite <- Hp. apply prefix_app_r. reflexivity.
  - intros Hq Hw. rewrite <- Hp. unfold Bridge.inflight.
    rewrite Hq, Hw. simpl. rewrite app_nil_r. reflexivity.
  - exact He.
  - rewrite He. unfold Bridge.inflight.
    destruct (Bridge.worker b) as [[s o]|]; simpl; lia.
Qed.

Lemma bridge_fifo_and_exclusive_witness :
  Bridge.run Sample.bridge_run (Bridge.open 0 0) =
    Some Sample.bridge_end ∧
  map fst (Bridge.fulfilled Sample.bridge_end) =
    Bridge.submitted Sample.bridge_end ∧
  (length (Bridge.executing Sample.bridge_end) ≤ 1)%nat.
Proof.
  assert (Hr : Bridge.run Sample.bridge_run (Bridge.open 0 0) =
               Some Sample.bridge_end) by reflexivity.
  destruct (bridge_fifo_and_exclusive 0 0 Sample.bridge_run
              Sample.bridge_end Hr) as (_ & _ & Hall & _ & Hex).
  split; [exact Hr|]. split; [|exact Hex].
  apply Hall; reflexivity.
Defined.

(** ** The Pool: size bounds *)

Local Close Scope string_scope.
Local Set Warnings "-clear-no-such-hyp".

Module PoolFacts.
Import Pool.

Ltac fields :=
  unfold idle_ids, size, freesize, is_open in *;
  cbn [minsize maxsize timeout recycle idle in_use state next_bid] in *.

Lemma open_bridges_ids first n now :
  map Bridge.bid (open_bridges first n now) = seq first n.
Proof.
  unfold open_bridges. rewrite map_map. simpl. apply map_id.
Qed.

Lemma wf_create now mi ma tmo rec p :
  create now mi ma tmo rec = Some p → wf p.
Proof.
  unfold create. destruct (mi <=? ma) eqn:Hle; [|discriminate].
  apply Nat.leb_le in Hle. intros [= <-].
  split; fields; rewrite ?open_bridges_ids.
  - apply NoDup_seq.
  - intros x _. set_solver.
  - intros x Hx. apply elem_of_seq in Hx. lia.
  - intros x Hx. set_solver.
  - intros b Hb. unfold open_bridges in Hb.
    apply list_elem_of_fmap in Hb as (i & -> & _). reflexivity.
  - exact Hle.
  - intros _. unfold open_bridges.
    rewrite length_map, length_seq, size_empty. lia.
Qed.














Lemma acquire_from_idle now p b p1 :
  (0 < freesize p)%nat → acquire now p = Acquired b p1 →
  ∃ rest, idle p = b :: rest ∧ idle p1 = rest ∧
          in_use p1 = {[Bridge.bid b]} ∪ in_use p ∧
          is_open p1 = true ∧ recycle p1 = recycle p.
Proof.
  unfold freesize, acquire. intros Hfree.
  destruct (Pool.is_open p) eqn:Ho; [|discriminate].
  destruct (idle p) as [|b0 rest]; [simpl in Hfree; lia|].
  intros [= <- <-]. exists rest. repeat split. exact Ho.
Qed.

End PoolFacts.







(** ** Further properties of the engine *)

(** X1: [Engine.release] never calls a Pool itself, whatever it is given
    ([None], a connection in a transaction or not): the Pool objects, the
    calls they received and the transaction flags are as before.  When it
    raises the whole world is as before; when it returns, its result names
    the one task it queued, [pool.release(conn.connection)] on the
    engine's own Pool, behind the tasks already pending. *)
Theorem release_only_queues (e : Engine) (conn : option SAConnection)
  (w : World) :
  let (r, w') := Engine.release e conn w in
  pools w' = pools w ∧ calls w' = calls w ∧
  transactions w' = transactions w ∧ settled w' = settled w ∧
  match r with
  | Raise _ => w' = w
  | Ok fut =>
      ∃ c, conn = Some c ∧ in_transaction c w = false ∧
           fut = next_object w ∧
           tasks w' =
             tasks w ++ [(fut, TaskPoolRelease (_pool e) (connection c))]
  end.
Proof.
  destruct conn as [c|]; [|cbn; repeat split].
  destruct (in_transaction c w) eqn:Htx.
  - rewrite (release_in_transaction e c w Htx). repeat split.
  - rewrite (release_not_in_transaction e c w Htx). unfold create_task.
    do 4 (split; [reflexivity|]).
    exists c. split; [reflexivity|]. split; [exact Htx|].
    split; reflexivity.
Qed.

(** X3: when the Pool refuses the acquisition, [await engine] raises the
    Pool's exception as it is; no connection object and no manager is
    created, nothing is queued for release, and in
    [with (await engine) as conn:] the block does not run. *)
Theorem await_failure_creates_nothing {A : Type} (e : Engine) (w : World)
  (x : exn) (body : option SAConnection -> M World A) :
  fst (pool_acquire (_pool e) w) = Raise x ->
  let w' := snd (pool_acquire (_pool e) w) in
  Engine.__await__ e w = (Raise x, w') ∧
  with_await_engine e body w = (Raise x, w') ∧
  pools w' = pools w ∧ tasks w' = tasks w ∧
  next_object w' = next_object w ∧
  calls w' = calls w ++ [CallAcquire (_pool e)].
Proof.
  intros Hx w'. subst w'.
  assert (Haw : Engine.__await__ e w =
                (Raise x, snd (pool_acquire (_pool e) w))).
  { unfold Engine.__await__, Engine._acquire, bind.
    destruct (pool_acquire (_pool e) w) as [r w1]; simpl in *.
    rewrite Hx. reflexivity. }
  split; [exact Haw|]. split.
  - unfold with_await_engine. rewrite Haw. reflexivity.
  - pose proof (pool_acquire_calls (_pool e) w) as Hc.
    unfold pool_acquire in *.
    destruct (Pool.acquire (clock w) (pools w !!! _pool e));
      simpl in *; try discriminate; repeat split; exact Hc.
Qed.

Lemma await_failure_creates_nothing_witness :
  let w := snd (Engine.close Sample.an_engine Sample.world) in
  Engine.__await__ Sample.an_engine w =
    (Raise pool_closed_error, snd (pool_acquire 0 w)) ∧
  with_await_engine Sample.an_engine Sample.failing_block w =
    (Raise pool_closed_error, snd (pool_acquire 0 w)) ∧
  pools (snd (pool_acquire 0 w)) = pools w ∧
  tasks (snd (pool_acquire 0 w)) = tasks w ∧
  next_object (snd (pool_acquire 0 w)) = next_object w ∧
  calls (snd (pool_acquire 0 w)) = calls w ++ [CallAcquire 0].
Proof.
  apply (await_failure_creates_nothing Sample.an_engine
           (snd (Engine.close Sample.an_engine Sample.world))
           pool_closed_error Sample.failing_block).
  reflexivity.
Defined.

(** X4: as the comment in [__await__] says, [with (await engine) as conn:
    body] is an alternative to [conn = await engine.acquire()] followed by
    [try: body finally: engine.release(conn)]: both leave the same world
    and end the same way, with the same exception and context when one is
    raised. *)
Theorem with_is_acquire_try_finally {A : Type} (e : Engine)
  (body : option SAConnection -> M World A) (w : World) :
  with_await_engine e body w =
    (block_result (fst (acquire_try_finally e body w)),
     snd (acquire_try_finally e body w)).
Proof.
  unfold with_await_engine, acquire_try_finally, Engine.__await__, bind,
    _EngineAcquireContextManager.resolve,
    _EngineAcquireContextManager.await_wrapped, await_coro, Engine.acquire,
    coroutine.
  cbn [fst snd utils._PoolAcquireContextManager._conn
       utils._PoolAcquireContextManager._coro coro_awaited coro_body].
  destruct (Engine._acquire e w) as [[c|x] w1]; [|reflexivity].
  cbn [ret fst snd].
  unfold with_stmt, cm_enter, cm_exit, Connection_cm,
    _ConnectionContextManager.__enter__, gets, lift_snd, bind, ret,
    try_finally.
  cbn [fst snd _conn _engine].
  destruct (body (Some c) w1) as [rb wb].
  destruct rb as [a|eb]; rewrite exit_unfold; cbn [_engine _conn fst snd];
    destruct (Engine.release e (Some c) wb) as [[fut|er] wr]; reflexivity.
Qed.

(** X6: [__exit__] returns [None], so the block never swallows an
    exception: when the body raises, the [with] statement raises, either
    the body's exception or one that carries it as its context.  This holds
    for every state of the manager. *)
Theorem block_never_swallows {A : Type} (cm : _ConnectionContextManager)
  (body : option SAConnection -> M World A) (w : World) (eb : exn) :
  fst (body (_conn cm) w) = Raise eb ->
  ∃ x, fst (with_stmt body (cm, w)) = Raise x ∧
       (x = eb ∨ exn_context x = Some eb).
Proof.
  intros Hb.
  unfold with_stmt, cm_enter, cm_exit, Connection_cm,
    _ConnectionContextManager.__enter__, gets, lift_snd, bind, ret.
  cbn [fst snd].
  destruct (body (_conn cm) w) as [rb wb]; simpl in Hb; subst rb.
  rewrite exit_unfold.
  destruct (_engine cm) as [e|].
  - destruct (Engine.release e (_conn cm) wb) as [[fut|er] wr]; cbn.
    + exists eb. split; [reflexivity | left; reflexivity].
    + eexists. split; [reflexivity | right; reflexivity].
  - cbn. eexists. split; [reflexivity | right; reflexivity].
Qed.

Lemma block_never_swallows_witness :
  ∃ x, fst (with_stmt Sample.failing_block
              (_ConnectionContextManager.__init__ Sample.an_engine Sample.conn,
               Sample.world)) = Raise x ∧
       (x = Sample.boom ∨ exn_context x = Some Sample.boom).
Proof.
  apply (block_never_swallows
           (_ConnectionContextManager.__init__ Sample.an_engine Sample.conn)
           Sample.failing_block Sample.world Sample.boom).
  reflexivity.
Defined.

Lemma pool_release_requeue (pid : nat) (raw : Bridge.t)
  (ts : list (nat * Task)) (n : nat) (w : World) :
  pool_release pid raw (requeue ts n w) =
    (fst (pool_release pid raw w), requeue ts n (snd (pool_release pid raw w))).
Proof.
  unfold pool_release, requeue, set_pool, log_call; cbn.
  destruct (Pool.release (clock w) raw (pools w !!! pid)); reflexivity.
Qed.

Lemma pool_release_tasks (pid : nat) (raw : Bridge.t) (w : World) :
  tasks (snd (pool_release pid raw w)) = tasks w ∧
  next_object (snd (pool_release pid raw w)) = next_object w.
Proof.
  unfold pool_release.
  destruct (Pool.release (clock w) raw (pools w !!! pid)); split; reflexivity.
Qed.

Lemma loop_step_requeue (t : nat * Task) (rest extra : list (nat * Task))
  (n : nat) (w : World) :
  tasks w = t :: rest ->
  loop_step (requeue (tasks w ++ extra) n w) =
    requeue (rest ++ extra) n (loop_step w) ∧
  tasks (loop_step w) = rest.
Proof.
  intros Ht. unfold loop_step. rewrite Ht. cbn [tasks requeue app].
  destruct t as [id [pid raw]]. unfold run_task_body.
  match goal with
  | |- context [pool_release pid raw ?v] =>
      change v with (requeue (rest ++ extra) n w)
  end.
  rewrite pool_release_requeue.
  match goal with
  | |- context [pool_release pid raw {| pools := ?a; transactions := ?b;
                  tasks := rest; settled := ?c; calls := ?d; clock := ?f;
                  next_object := ?g |}] =>
      change {| pools := a; transactions := b; tasks := rest; settled := c;
                calls := d; clock := f; next_object := g |}
        with (requeue rest (next_object w) w)
  end.
  rewrite pool_release_requeue.
  destruct (pool_release pid raw w) as [r w1]. cbn. split; reflexivity.
Qed.

Lemma loop_steps_requeue (extra : list (nat * Task)) (n : nat) (w : World) :
  loop_steps (length (tasks w)) (requeue (tasks w ++ extra) n w) =
    requeue extra n (drain w).
Proof.
  unfold drain.
  remember (length (tasks w)) as k eqn:Hk. revert w Hk.
  induction k as [|k IH]; intros w Hk.
  - destruct (tasks w) eqn:Ht; [|discriminate]. reflexivity.
  - destruct (tasks w) as [|t rest] eqn:Ht; [discriminate|].
    rewrite <- Ht.
    destruct (loop_step_requeue t rest extra n w Ht) as [Hs Hr].
    cbn [loop_steps]. rewrite Hs, <- Hr.
    apply IH. rewrite Hr. simpl in Hk. congruence.
Qed.

Lemma loop_steps_snoc (k : nat) (w : World) :
  loop_steps (S k) w = loop_step (loop_steps k w).
Proof.
  revert w. induction k as [|k IH]; intros w; [reflexivity|].
  change (loop_steps (S (S k)) w) with (loop_steps (S k) (loop_step w)).
  rewrite IH. reflexivity.
Qed.

Lemma drain_after_release (e : Engine) (c : SAConnection)
  (w : World) :
  in_transaction c w = false ->
  let w' := snd (Engine.release e (Some c) w) in
  calls (drain w') =
    calls (drain w) ++ [CallRelease (_pool e) (Bridge.bid (connection c))] ∧
  tasks (drain w') = [].
Proof.
  intros Htx w'. subst w'.
  rewrite (release_not_in_transaction e c w Htx).
  unfold create_task. cbn [snd].
  match goal with
  | |- context [drain ?v] =>
      change v with
        (requeue (tasks w ++ [(next_object w,
                               TaskPoolRelease (_pool e) (connection c))])
                 (S (next_object w)) w)
  end.
  unfold drain at 1 3. cbn [tasks requeue]. rewrite length_app. cbn [length].
  rewrite Nat.add_1_r, loop_steps_snoc, loop_steps_requeue.
  unfold loop_step. cbn [tasks requeue run_task_body].
  match goal with
  | |- context [pool_release ?p ?r ?v] =>
      pose proof (pool_release_calls p r v) as Hc;
      pose proof (pool_release_tasks p r v) as [Ht _];
      destruct (pool_release p r v) as [res w1]
  end.
  cbn in *. split; assumption.
Qed.

(** X2: releasing a connection that is not in a transaction reaches the
    Pool only through the event loop: once the loop has run what is
    pending, the Pools have received the calls they would have received
    anyway and then one [release] of [conn.connection] on the engine's
    Pool, and nothing is left pending. *)
Theorem released_connection_reaches_pool (e : Engine) (c : SAConnection)
  (w : World) :
  in_transaction c w = false ->
  let w' := snd (Engine.release e (Some c) w) in
  calls (drain w') =
    calls (drain w) ++ [CallRelease (_pool e) (Bridge.bid (connection c))] ∧
  tasks (drain w') = [].
Proof. exact (drain_after_release e c w). Qed.

Lemma released_connection_reaches_pool_witness :
  let w' := snd (Engine.release Sample.an_engine (Some Sample.conn)
                   (snd (Engine.__await__ Sample.an_engine Sample.world))) in
  calls (drain w') =
    calls (drain (snd (Engine.__await__ Sample.an_engine Sample.world))) ++
      [CallRelease 0 0] ∧
  tasks (drain w') = [].
Proof.
  apply (released_connection_reaches_pool Sample.an_engine Sample.conn
           (snd (Engine.__await__ Sample.an_engine Sample.world))).
  reflexivity.
Defined.

(** X5: the block gives back what it took.  When the Pool hands out [raw]
    on [await engine] and the body leaves no transaction unfinished, the
    [with] statement ends as the body ended and has queued one task, the
    release of that same [raw] to the Pool it came from, on the world the
    body left. *)
Theorem block_releases_acquired_bridge {A : Type} (e : Engine)
  (body : option SAConnection -> M World A) (w w1 wb : World)
  (raw : Bridge.t) (rb : Result A) :
  pool_acquire (_pool e) w = (Ok raw, w1) ->
  let conn := {| sa_id := next_object w1; connection := raw; engine := e |} in
  body (Some conn) (snd (new_object w1)) = (rb, wb) ->
  in_transaction conn wb = false ->
  with_await_engine e body w =
    (block_result rb,
     snd (create_task (TaskPoolRelease (_pool e) raw) wb)).
Proof.
  intros Hacq conn Hb Htx.
  unfold with_await_engine, Engine.__await__, Engine._acquire,
    SAConnection_new, bind, ret.
  rewrite Hacq. cbn [new_object fst snd].
  unfold with_stmt, cm_enter, cm_exit, Connection_cm,
    _ConnectionContextManager.__enter__, gets, lift_snd, bind, ret.
  cbn [fst snd _conn _engine].
  fold conn. change (new_object w1) with
    (Ok (next_object w1) : Result nat, snd (new_object w1)) in Hb.
  cbn [snd] in Hb. unfold new_object in Hb. cbn [snd] in Hb.
  rewrite Hb.
  destruct rb as [a|eb]; rewrite exit_unfold; cbn [_engine _conn];
    rewrite (release_not_in_transaction e conn wb Htx); reflexivity.
Qed.

Lemma acquire_fields (now : Z) (p p' : Pool.t) (b : Bridge.t) :
  Pool.acquire now p = Pool.Acquired b p' ->
  Pool.minsize p' = Pool.minsize p ∧ Pool.maxsize p' = Pool.maxsize p ∧
  Pool.timeout p' = Pool.timeout p ∧ Pool.state p' = Pool.state p ∧
  Pool.in_use p' = {[Bridge.bid b]} ∪ Pool.in_use p.
Proof.
  unfold Pool.acquire. intros H.
  repeat case_match; simplify_eq; repeat split.
Qed.

Lemma settle_fields (p : Pool.t) :
  Pool.minsize (Pool.settle p) = Pool.minsize p ∧
  Pool.maxsize (Pool.settle p) = Pool.maxsize p ∧
  Pool.timeout (Pool.settle p) = Pool.timeout p ∧
  Pool.in_use (Pool.settle p) = Pool.in_use p ∧
  Pool.idle (Pool.settle p) = Pool.idle p ∧
  (Pool.is_open p = true -> Pool.settle p = p).
Proof.
  unfold Pool.settle, Pool.is_open.
  repeat case_match; repeat split; try discriminate.
Qed.

Lemma release_fields (now : Z) (p p' : Pool.t) (b : Bridge.t) :
  Pool.release now b p = Pool.Released p' ->
  Pool.minsize p' = Pool.minsize p ∧ Pool.maxsize p' = Pool.maxsize p ∧
  Pool.timeout p' = Pool.timeout p ∧
  Pool.in_use p' = Pool.in_use p ∖ {[Bridge.bid b]} ∧
  (Pool.is_open p = true -> Pool.is_open p' = true).
Proof.
  unfold Pool.release. intros H.
  repeat case_match; simplify_eq;
    try (repeat split; try (intros Ho; exact Ho); fail).
  match goal with
  | |- context [Pool.settle ?q] =>
      destruct (settle_fields q) as (-> & -> & -> & -> & _ & Hopen)
  end.
  repeat split. intros Ho. rewrite Hopen; exact Ho.
Qed.

Lemma acquire_healthy (now : Z) (p p' : Pool.t) (b : Bridge.t) :
  Pool.wf p -> Pool.acquire now p = Pool.Acquired b p' ->
  Pool.healthy b = true.
Proof.
  intros Hwf. unfold Pool.acquire. intros H.
  repeat case_match; simplify_eq; try reflexivity.
  apply (Pool.wf_healthy _ Hwf).
  match goal with Hi : Pool.idle p = _ |- _ => rewrite Hi end. left.
Qed.

Lemma create_acquire (now now' : Z) (mi ma : nat) (tmo rec : Z) (p : Pool.t) :
  Pool.create now mi ma tmo rec = Some p -> (0 < ma)%nat ->
  ∃ b p', Pool.acquire now' p = Pool.Acquired b p'.
Proof.
  unfold Pool.create. intros H Hma.
  case_match; simplify_eq.
  unfold Pool.acquire, Pool.size; cbn.
  destruct mi as [|mi]; cbn.
  - rewrite size_empty. cbn. destruct ma; [lia|]. cbn. eauto.
  - eauto.
Qed.

Lemma block_releases_acquired_bridge_witness :
  with_await_engine Sample.an_engine (fun _ => ret 3) Sample.world =
    (Ok (Some 3),
     snd (create_task (TaskPoolRelease 0 (Bridge.open 0 0))
            (snd (new_object (snd (pool_acquire 0 Sample.world)))))).
Proof.
  apply (block_releases_acquired_bridge Sample.an_engine (fun _ => ret 3)
           Sample.world (snd (pool_acquire 0 Sample.world))
           (snd (new_object (snd (pool_acquire 0 Sample.world))))
           (Bridge.open 0 0) (Ok 3)).
  - reflexivity.
  - reflexivity.
  - reflexivity.
Defined.

(** X7: [_create_engine] with sizes [minsize ≤ maxsize], [0 < maxsize]
    (defaults 1 and 10) returns an Engine on a new Pool with the dialect
    given (or the default one) and the [dsn]; the Pool has received one
    [acquire] and one [release] of the Bridge acquired, no connection is
    left checked out ([freesize = size]), the engine is not closed and
    reports the sizes and timeout asked for (default [TIMEOUT]). *)
Theorem create_engine_probes_once (json_dumps : pyval -> string) (TIMEOUT : Z)
  (dsn : option string) (minsize maxsize : option nat)
  (dialect : option Dialect.t) (timeout pool_recycle : option Z) (w : World) :
  let mi := default 1 minsize in
  let ma := default 10 maxsize in
  (mi ≤ ma)%nat -> (0 < ma)%nat ->
  let e := Engine.__init__ (default (default_dialect json_dumps) dialect)
             (next_object w) dsn in
  ∃ bid w',
    _create_engine json_dumps TIMEOUT dsn minsize maxsize dialect timeout
      pool_recycle w = (Ok e, w') ∧
    calls w' =
      calls w ++ [CallAcquire (next_object w);
                  CallRelease (next_object w) bid] ∧
    tasks w' = tasks w ∧
    Engine.minsize e w' = mi ∧ Engine.maxsize e w' = ma ∧
    Engine.timeout e w' = default TIMEOUT timeout ∧
    Engine.freesize e w' = Engine.size e w' ∧
    Engine.closed e w' = false.
Proof.
  intros mi ma Hle Hma e.
  unfold _create_engine, bind, create_pool.
  fold mi ma.
  destruct (Pool.create (clock w) mi ma (default TIMEOUT timeout)
              (default (-1)%Z pool_recycle)) as [p0|] eqn:Hc.
  2:{ unfold Pool.create in Hc. apply Nat.leb_le in Hle. rewrite Hle in Hc.
      discriminate. }
  pose proof (PoolFacts.wf_create _ _ _ _ _ _ Hc) as Hwf.
  destruct (create_acquire _ (clock w) _ _ _ _ _ Hc Hma) as (b & p1 & Ha).
  assert (Hp0 : Pool.minsize p0 = mi ∧ Pool.maxsize p0 = ma ∧
                Pool.timeout p0 = default TIMEOUT timeout ∧
                Pool.in_use p0 = ∅ ∧ Pool.is_open p0 = true).
  { unfold Pool.create in Hc. case_match; simplify_eq. repeat split. }
  destruct Hp0 as (Hmi & Hmx & Hto & Hu0 & Ho0).
  cbn [new_object]. unfold pool_acquire, try_finally, ret, pool_release.
  cbn [set_pool log_call pools clock].
  rewrite lookup_total_insert_eq, Ha.
  cbn [set_pool log_call pools clock].
  rewrite lookup_total_insert_eq.
  destruct (acquire_fields _ _ _ _ Ha) as (Hmi1 & Hmx1 & Hto1 & Hst1 & Hu1).
  pose proof (acquire_healthy _ _ _ _ Hwf Ha) as Hh.
  unfold Pool.healthy in Hh. apply andb_true_iff in Hh as [_ Htx].
  apply negb_true_iff in Htx.
  assert (Hin : Bridge.bid b ∈ Pool.in_use p1) by (rewrite Hu1; set_solver).
  destruct (pool_release_checked_out (clock w) b p1 Hin Htx) as [p2 Hr].
  rewrite Hr.
  destruct (release_fields _ _ _ _ Hr) as (Hmi2 & Hmx2 & Hto2 & Hu2 & Ho2).
  exists (Bridge.bid b). eexists. split; [reflexivity|].
  unfold log_call, set_pool. cbn [calls tasks pools].
  split; [rewrite <- app_assoc; reflexivity|]. split; [reflexivity|].
  unfold Engine.minsize, Engine.maxsize, Engine.timeout, Engine.freesize,
    Engine.size, Engine.closed, Engine.pool_of.
  subst e. cbn [_pool Engine.__init__ pools].
  rewrite lookup_total_insert_eq.
  split; [congruence|]. split; [congruence|]. split; [congruence|].
  split.
  - unfold Pool.size, Pool.freesize. rewrite Hu2, Hu1, Hu0.
    replace (({[Bridge.bid b]} ∪ ∅) ∖ {[Bridge.bid b]} : gset nat)
      with (∅ : gset nat) by set_solver.
    rewrite size_empty. lia.
  - assert (Ho : Pool.is_open p2 = true).
    { apply Ho2. unfold Pool.is_open in *. rewrite Hst1. exact Ho0. }
    unfold Pool.is_open in Ho. unfold Pool.closed.
    destruct (Pool.state p2); try discriminate; reflexivity.
Qed.

Lemma create_engine_probes_once_witness :
  ∃ bid w',
    _create_engine (fun _ => EmptyString) 60 None (Some 2) (Some 3) None None
      (Some 0%Z) Sample.world =
      (Ok (Engine.__init__ (default_dialect (fun _ => EmptyString)) 1 None),
       w') ∧
    calls w' = calls Sample.world ++ [CallAcquire 1; CallRelease 1 bid] ∧
    tasks w' = tasks Sample.world ∧
    Engine.minsize
      (Engine.__init__ (default_dialect (fun _ => EmptyString)) 1 None) w' =
      2 ∧
    Engine.maxsize
      (Engine.__init__ (default_dialect (fun _ => EmptyString)) 1 None) w' =
      3 ∧
    Engine.timeout
      (Engine.__init__ (default_dialect (fun _ => EmptyString)) 1 None) w' =
      60%Z ∧
    Engine.freesize
      (Engine.__init__ (default_dialect (fun _ => EmptyString)) 1 None) w' =
    Engine.size
      (Engine.__init__ (default_dialect (fun _ => EmptyString)) 1 None) w' ∧
    Engine.closed
      (Engine.__init__ (default_dialect (fun _ => EmptyString)) 1 None) w' =
      false.
Proof.
  apply (create_engine_probes_once (fun _ => EmptyString) 60 None (Some 2)
           (Some 3) None None (Some 0%Z) Sample.world); cbn; lia.
Defined.

(** X8: [_create_engine] releases exactly what it acquired.  When the
    Pool's construction is rejected it raises and the world is untouched;
    when the acquisition on the new Pool fails it raises that failure and
    no release follows; when the acquisition hands out [raw], what follows
    is exactly [pool.release(raw)] on that Pool, the [finally] way: the
    Engine is returned if the release goes through, the release's failure
    is raised if not. *)
Theorem create_engine_releases_what_it_acquired
  (json_dumps : pyval -> string) (TIMEOUT : Z)
  (dsn : option string) (minsize maxsize : option nat)
  (dialect : option Dialect.t) (timeout pool_recycle : option Z) (w : World) :
  let run :=
    _create_engine json_dumps TIMEOUT dsn minsize maxsize dialect timeout
      pool_recycle w in
  match create_pool dsn (default 1 minsize) (default 10 maxsize)
          (default TIMEOUT timeout) (default (-1)%Z pool_recycle) w with
  | (Raise x, _) => run = (Raise x, w)
  | (Ok pool, w0) =>
      match pool_acquire pool w0 with
      | (Raise x, w1) =>
          run = (Raise x, w1) ∧ calls w1 = calls w ++ [CallAcquire pool]
      | (Ok raw, w1) =>
          snd run = snd (pool_release pool raw w1) ∧
          calls (snd run) =
            calls w ++ [CallAcquire pool;
                        CallRelease pool (Bridge.bid raw)] ∧
          fst run =
            match fst (pool_release pool raw w1) with
            | Ok _ =>
                Ok (Engine.__init__
                      (default (default_dialect json_dumps) dialect) pool dsn)
            | Raise x => Raise x
            end
      end
  end.
Proof.
  intros run. subst run. unfold _create_engine, bind.
  assert (Hcreate :
    ∀ pool w0,
      create_pool dsn (default 1 minsize) (default 10 maxsize)
        (default TIMEOUT timeout) (default (-1)%Z pool_recycle) w =
      (Ok pool, w0) -> calls w0 = calls w).
  { unfold create_pool. intros pool w0 H.
    destruct (Pool.create _ _ _ _ _); inversion H; reflexivity. }
  assert (Hreject :
    ∀ x w0,
      create_pool dsn (default 1 minsize) (default 10 maxsize)
        (default TIMEOUT timeout) (default (-1)%Z pool_recycle) w =
      (Raise x, w0) -> w0 = w).
  { unfold create_pool. intros x w0 H.
    destruct (Pool.create _ _ _ _ _); inversion H; reflexivity. }
  destruct (create_pool _ _ _ _ _ w) as [[pool|x] w0] eqn:Hc.
  2:{ rewrite (Hreject x w0 eq_refl). reflexivity. }
  specialize (Hcreate pool w0 eq_refl).
  pose proof (pool_acquire_calls pool w0) as Hacq.
  destruct (pool_acquire pool w0) as [[raw|x] w1]; cbn [snd] in Hacq.
  2:{ split; [reflexivity|]. rewrite Hacq, Hcreate. reflexivity. }
  unfold try_finally, ret.
  pose proof (pool_release_calls pool raw w1) as Hrel.
  destruct (pool_release pool raw w1) as [[u|x] w2]; cbn [fst snd] in *;
    (split; [reflexivity|]); (split; [|reflexivity]);
    rewrite Hrel, Hacq, Hcreate, <- app_assoc; reflexivity.
Qed.

Lemma close_not_open (p : Pool.t) : Pool.is_open (Pool.close p) = false.
Proof.
  unfold Pool.close. destruct (Pool.is_open p) eqn:Ho; [|exact Ho].
  unfold Pool.settle, Pool.is_open.
  cbn [Pool.state Pool.idle Pool.in_use]. unfold Pool.size.
  cbn [Pool.state Pool.idle Pool.in_use].
  destruct (_ =? 0)%nat; reflexivity.
Qed.

Lemma close_idempotent (p : Pool.t) : Pool.close (Pool.close p) = Pool.close p.
Proof.
  unfold Pool.close at 1. rewrite close_not_open. reflexivity.
Qed.

Lemma acquire_not_open (now : Z) (p : Pool.t) :
  Pool.is_open p = false -> Pool.acquire now p = Pool.AcquireClosed.
Proof. intros H. unfold Pool.acquire. rewrite H. reflexivity. Qed.

(** X9: "Closed engine doesn't allow to acquire new connections": after
    [close], [_acquire] and [await engine] raise the Pool's [ClosedError]
    and leave the Pools as they are; a second [close] changes nothing;
    [close] touches no other Pool, queues nothing and makes no call of
    [acquire] or [release]. *)
Theorem closed_engine_refuses_acquire (e : Engine) (w : World) :
  let w' := snd (Engine.close e w) in
  fst (Engine._acquire e w') = Raise pool_closed_error ∧
  fst (Engine.__await__ e w') = Raise pool_closed_error ∧
  pools (snd (Engine._acquire e w')) = pools w' ∧
  Engine.close e w' = (Ok tt, w') ∧
  (∀ pid, pid ≠ _pool e -> pools w' !! pid = pools w !! pid) ∧
  tasks w' = tasks w ∧ calls w' = calls w.
Proof.
  intros w'. subst w'. unfold Engine.close. cbn [snd].
  assert (Hacq :
    pool_acquire (_pool e)
      (set_pool (_pool e) (Pool.close (Engine.pool_of e w)) w) =
    (Raise pool_closed_error,
     log_call (CallAcquire (_pool e))
       (set_pool (_pool e) (Pool.close (Engine.pool_of e w)) w))).
  { unfold pool_acquire. cbn [set_pool pools].
    rewrite lookup_total_insert_eq, acquire_not_open by apply close_not_open.
    reflexivity. }
  unfold Engine.__await__, Engine._acquire, bind. rewrite Hacq.
  split; [reflexivity|]. split; [reflexivity|]. split; [reflexivity|].
  split.
  - rewrite pool_of_set_pool, close_idempotent.
    unfold set_pool. cbn [pools]. rewrite insert_insert_eq. reflexivity.
  - split; [|split; reflexivity].
    intros pid Hne. cbn. apply lookup_insert_ne. congruence.
Qed.

(** X10: after [terminate] the engine is closed and holds no connection,
    idle or handed out; acquiring is refused; the size bounds are kept and
    no other Pool is touched. *)
Theorem terminated_engine_is_empty (e : Engine) (w : World) :
  let w' := snd (Engine.terminate e w) in
  Engine.closed e w' = true ∧
  Engine.size e w' = 0 ∧ Engine.freesize e w' = 0 ∧
  fst (Engine._acquire e w') = Raise pool_closed_error ∧
  Engine.minsize e w' = Engine.minsize e w ∧
  Engine.maxsize e w' = Engine.maxsize e w ∧
  (∀ pid, pid ≠ _pool e -> pools w' !! pid = pools w !! pid).
Proof.
  intros w'. subst w'. unfold Engine.terminate. cbn [snd].
  unfold Engine.closed, Engine.size, Engine.freesize, Engine.minsize,
    Engine.maxsize.
  rewrite pool_of_set_pool.
  split; [reflexivity|]. split; [|split; [reflexivity|]].
  - unfold Pool.size. cbn. rewrite size_empty. reflexivity.
  - split; [|split; [reflexivity|split; [reflexivity|]]].
    + unfold Engine._acquire, bind, pool_acquire. cbn [set_pool pools].
      rewrite lookup_total_insert_eq. reflexivity.
    + intros pid Hne. cbn. apply lookup_insert_ne. congruence.
Qed.

(** X11: [Engine.release] keeps no record of what it released: releasing
    the same connection twice queues two tasks for the same Bridge, and
    once the loop has run the Pool has received two [release] calls for
    it. *)
Theorem release_twice_queues_twice (e : Engine) (c : SAConnection)
  (w : World) :
  in_transaction c w = false ->
  let w1 := snd (Engine.release e (Some c) w) in
  let w2 := snd (Engine.release e (Some c) w1) in
  raised (fst (Engine.release e (Some c) w1)) = None ∧
  tasks w2 =
    tasks w ++
      [(next_object w, TaskPoolRelease (_pool e) (connection c));
       (S (next_object w), TaskPoolRelease (_pool e) (connection c))] ∧
  calls (drain w2) =
    calls (drain w) ++
      [CallRelease (_pool e) (Bridge.bid (connection c));
       CallRelease (_pool e) (Bridge.bid (connection c))].
Proof.
  intros Htx w1 w2.
  assert (Htx1 : in_transaction c w1 = false).
  { subst w1. rewrite (release_not_in_transaction e c w Htx). exact Htx. }
  pose proof (drain_after_release e c w Htx) as [Hc1 _].
  pose proof (drain_after_release e c w1 Htx1) as [Hc2 _].
  fold w1 in Hc1. fold w2 in Hc2.
  split; [|split].
  - rewrite (release_not_in_transaction e c w1 Htx1). reflexivity.
  - subst w2. rewrite (release_not_in_transaction e c w1 Htx1).
    subst w1. rewrite (release_not_in_transaction e c w Htx).
    cbn. rewrite <- app_assoc. reflexivity.
  - rewrite Hc2, Hc1, <- app_assoc. reflexivity.
Qed.

Lemma release_twice_queues_twice_witness :
  let w := snd (Engine.__await__ Sample.an_engine Sample.world) in
  let w1 := snd (Engine.release Sample.an_engine (Some Sample.conn) w) in
  let w2 := snd (Engine.release Sample.an_engine (Some Sample.conn) w1) in
  raised (fst (Engine.release Sample.an_engine (Some Sample.conn) w1)) =
    None ∧
  tasks w2 =
    tasks w ++
      [(next_object w, TaskPoolRelease 0 (connection Sample.conn));
       (S (next_object w), TaskPoolRelease 0 (connection Sample.conn))] ∧
  calls (drain w2) =
    calls (drain w) ++ [CallRelease 0 0; CallRelease 0 0].
Proof.
  apply (release_twice_queues_twice Sample.an_engine Sample.conn
           (snd (Engine.__await__ Sample.an_engine Sample.world))).
  reflexivity.
Defined.
